(** * byline: a line-by-line reader with a chain of filter functions

    A verification development for [byline.go].  The Go package wraps an
    [io.Reader] in a [bufio.Scanner] whose split function keeps the record
    separator attached to every record, runs each record through a list of
    filter functions and exposes the result again as an [io.Reader].

    Conventions of the embedding.
    - [[]byte] and [string] are both [list byte]: a Go string is an
      immutable byte sequence and the conversions [string(b)], [[]byte(s)]
      of a byte slice copy it unchanged.  The conversion [string(c)] of one
      byte [c] is another matter: it is the UTF-8 encoding of the code
      point [c], see [stringOfByte].  Slices are values; the aliasing
      between the slice returned by [scanner.Bytes()] and the scanner's
      buffer is not modelled.
    - [int] is [Z].  Lengths and indices never come near the word size;
      the counter [NR] is incremented with the wrap-around of a 64-bit
      [int] written out, see [wrapInt].
    - [error] is an inductive with the two sentinels the code compares
      against by identity and a constructor for every other error value;
      a nil error is [None].
    - The [Reader] struct is threaded explicitly: a method with a pointer
      receiver takes the reader and returns the updated one.
    - Closures stored in [filterFuncs] are represented by the constructor
      that builds them; [call] runs one of them on the reader it captured.
      User callbacks own a state of type [U] and do not reach into the
      reader. *)

From Stdlib Require Import Strings.Byte Strings.String.
From Stdlib Require Import List ZArith Lia Bool Arith.
Import ListNotations.
Open Scope Z_scope.

(** ** Bytes, strings and errors *)

Definition bytes := list byte.

(** A string literal as a byte sequence. *)
Definition B (s : string) : bytes := list_byte_of_string s.

Definition len {A : Type} (l : list A) : Z := Z.of_nat (length l).

(** [s[lo:hi]] for [0 <= lo <= hi <= len s]. *)
Definition slice {A : Type} (s : list A) (lo hi : Z) : list A :=
  firstn (Z.to_nat (hi - lo)) (skipn (Z.to_nat lo) s).

Inductive error : Type :=
| ErrOmitLine                (* errors.New("ErrOmitLine") *)
| EOF                        (* io.EOF *)
| ErrOther (msg : string).   (* any other error value *)

(** default line separator *)
Definition defaultRS : byte := x0a.

(** for Grep* methods *)
Definition nullBytes : bytes := [].

(** ** Package strings and bytes *)

(** [bytes.IndexByte]: index of the first [c] in [b], or -1. *)
Fixpoint IndexByte (b : bytes) (c : byte) : Z :=
  match b with
  | [] => -1
  | x :: b' =>
      if Byte.eqb x c then 0
      else let i := IndexByte b' c in if i <? 0 then -1 else i + 1
  end.

(** [a == b] on strings. *)
Definition bytes_eqb (a b : bytes) : bool :=
  if list_eq_dec Byte.byte_eq_dec a b then true else false.

(** [strings.HasSuffix] *)
Definition HasSuffix (s suffix : bytes) : bool :=
  (length suffix <=? length s)%nat &&
  bytes_eqb (skipn (length s - length suffix) s) suffix.

(** [strings.TrimSuffix] *)
Definition TrimSuffix (s suffix : bytes) : bytes :=
  if HasSuffix s suffix then firstn (length s - length suffix) s else s.

Definition byteOfN (n : N) : byte :=
  match Byte.of_N (n mod 256) with
  | Some b => b
  | None => x00
  end.

(** The conversion [string(c)] of a byte [c]: the UTF-8 encoding of the
    code point [c], which is the byte itself below 0x80 and two bytes
    from 0x80 on. *)
Definition stringOfByte (c : byte) : bytes :=
  let n := Byte.to_N c in
  if (n <? 128)%N then [c]
  else [byteOfN (192 + n / 64); byteOfN (128 + n mod 64)].

(** The last byte of [s] is [c]; a predicate of the statements, not a
    function of the code. *)
Definition lastByteIs (s : bytes) (c : byte) : bool :=
  match rev s with
  | x :: _ => Byte.eqb x c
  | [] => false
  end.

(** ** Package regexp

    The regular expression engine is a library of its own.  A compiled
    expression is represented by its source text and by the function that
    finds all successive matches; [Split] and [Match] are the library's
    methods over that. *)

Record Regexp : Type := {
  expr : bytes;
  FindAllStringIndex : bytes -> Z -> list (Z * Z)
}.

(** The loop of [Regexp.Split]: [strs], [beg] and [end_] are the loop
    variables, the result is their value after the loop. *)
Fixpoint splitLoop (s : bytes) (n : Z) (matches : list (Z * Z))
  (strs : list bytes) (beg end_ : Z) : list bytes * Z * Z :=
  match matches with
  | [] => (strs, beg, end_)
  | (m0, m1) :: rest =>
      if (0 <? n) && (len strs =? n - 1) then (strs, beg, end_)
      else
        let end' := m0 in
        let strs' := if negb (m1 =? 0) then strs ++ [slice s beg end'] else strs in
        splitLoop s n rest strs' m1 end'
  end.

Definition Split (re : Regexp) (s : bytes) (n : Z) : list bytes :=
  if n =? 0 then []
  else if (0 <? len (expr re)) && (len s =? 0) then [[]]
  else
    let matches := FindAllStringIndex re s n in
    let '(strs, beg, end_) := splitLoop s n matches [] 0 0 in
    if negb (end_ =? len s) then strs ++ [slice s beg (len s)] else strs.

Definition Match (re : Regexp) (b : bytes) : bool :=
  match FindAllStringIndex re b 1 with
  | [] => false
  | _ :: _ => true
  end.

(** The class [\s] of the engine: tab, newline, form feed, carriage return
    and space. *)
Definition isSpace (c : byte) : bool :=
  match c with
  | x09 | x0a | x0c | x0d | x20 => true
  | _ => false
  end.

(** Maximal runs of white space in [s], which starts at offset [i]; [run]
    is the start of the run being read, if any. *)
Fixpoint spaceRuns (s : bytes) (i : Z) (run : option Z) : list (Z * Z) :=
  match s with
  | [] => match run with Some b => [(b, i)] | None => [] end
  | c :: s' =>
      if isSpace c then
        spaceRuns s' (i + 1) (Some (match run with Some b => b | None => i end))
      else
        match run with
        | Some b => (b, i) :: spaceRuns s' (i + 1) None
        | None => spaceRuns s' (i + 1) None
        end
  end.

Definition limitMatches {A : Type} (n : Z) (l : list A) : list A :=
  if n <? 0 then l else firstn (Z.to_nat n) l.

(** default field separator: [regexp.MustCompile(`\s+`)] *)
Definition defaultFS : Regexp :=
  {| expr := B "\s+";
     FindAllStringIndex := fun s n => limitMatches n (spaceRuns s 0 None) |}.

Definition byteIn (lo hi : N) (b : byte) : bool :=
  ((lo <=? Byte.to_N b) && (Byte.to_N b <=? hi))%N.

(** [utf8.DecodeRune]: the number of bytes of the first character of
    [s], 1 for a byte that starts no well-formed encoding. *)
Definition runeWidth (s : bytes) : nat :=
  let two (tl : bytes) : nat :=
    match tl with
    | b1 :: _ => if byteIn 128 191 b1 then 2%nat else 1%nat
    | _ => 1%nat
    end in
  let three (lo hi : N) (tl : bytes) : nat :=
    match tl with
    | b1 :: b2 :: _ =>
        if byteIn lo hi b1 && byteIn 128 191 b2 then 3%nat else 1%nat
    | _ => 1%nat
    end in
  let four (lo hi : N) (tl : bytes) : nat :=
    match tl with
    | b1 :: b2 :: b3 :: _ =>
        if byteIn lo hi b1 && byteIn 128 191 b2 && byteIn 128 191 b3
        then 4%nat else 1%nat
    | _ => 1%nat
    end in
  match s with
  | [] => 0%nat
  | b0 :: tl =>
      if byteIn 0 127 b0 then 1%nat
      else if byteIn 194 223 b0 then two tl
      else if byteIn 224 224 b0 then three 160%N 191%N tl
      else if byteIn 225 236 b0 || byteIn 238 239 b0 then three 128%N 191%N tl
      else if byteIn 237 237 b0 then three 128%N 159%N tl
      else if byteIn 240 240 b0 then four 144%N 191%N tl
      else if byteIn 241 243 b0 then four 128%N 191%N tl
      else if byteIn 244 244 b0 then four 128%N 143%N tl
      else 1%nat
  end.

(** The empty matches at every character boundary of [s], which starts
    at offset [i]; [skip] bytes of the current character are still to be
    passed. *)
Fixpoint runeBoundaries (s : bytes) (i : Z) (skip : nat) : list (Z * Z) :=
  match s with
  | [] => [(i, i)]
  | _ :: tl =>
      match skip with
      | O => (i, i) :: runeBoundaries tl (i + 1) (runeWidth s - 1)
      | S k => runeBoundaries tl (i + 1) k
      end
  end.

(** The regular expression compiled from the empty pattern: it matches
    the empty string at every character boundary. *)
Definition emptyFS : Regexp :=
  {| expr := [];
     FindAllStringIndex := fun s n => limitMatches n (runeBoundaries s 0 0) |}.

(** ** AWKVars *)

(** settings for AWK mode, see man awk *)
Record AWKVars : Type := {
  NR : Z;        (* number of current line (begin from 1) *)
  NF : Z;        (* fields count in curent line *)
  RS : byte;     (* record separator, default is '\n' *)
  FS : Regexp    (* field separator, default is `\s+` *)
}.

(** The width of [int], on the 64-bit platforms. *)
Definition intSize : Z := 64.

(** An integer brought back into the range of [int], as the arithmetic
    of the language does. *)
Definition wrapInt (x : Z) : Z :=
  (x + 2 ^ (intSize - 1)) mod 2 ^ intSize - 2 ^ (intSize - 1).

Definition set_NR (v : AWKVars) (x : Z) : AWKVars :=
  {| NR := x; NF := NF v; RS := RS v; FS := FS v |}.
Definition set_NF (v : AWKVars) (x : Z) : AWKVars :=
  {| NR := NR v; NF := x; RS := RS v; FS := FS v |}.
Definition set_RS (v : AWKVars) (x : byte) : AWKVars :=
  {| NR := NR v; NF := NF v; RS := x; FS := FS v |}.
Definition set_FS (v : AWKVars) (x : Regexp) : AWKVars :=
  {| NR := NR v; NF := NF v; RS := RS v; FS := x |}.

(** ** The split function *)

(** [scanLinesWithNL data atEOF]: the advance and the token ([None] for a
    nil token).  Its third result is nil on every path. *)
Definition scanLinesWithNL (rs : byte) (data : bytes) (atEOF : bool)
  : Z * option bytes :=
  if atEOF && (len data =? 0) then (0, None)
  else
    let i := IndexByte data rs in
    if 0 <=? i then
      (* We have a full newline-terminated line. *)
      (i + 1, Some (slice data 0 (i + 1)))
    else if atEOF then
      (* If we're at EOF, we have a final, non-terminated line. Return it. *)
      (len data, Some data)
    else
      (* Request more data. *)
      (0, None).

(** ** bufio.Scanner

    The scanner as [NewScanner] sets it up, with the default limit on
    the size of a token.  Of its buffer the model keeps the length
    ([scap], [len(s.buf)]), the offset of the unconsumed bytes ([sstart],
    [s.start]) and those bytes themselves ([sbuf], [s.buf[s.start:s.end]]);
    [serr] is [s.err].

    The source is given by the chunks it is ready to deliver ([srcChunks])
    and the error it returns after the last one ([srcErr], [io.EOF] at a
    clean end): a call of its [Read] with room for [space] bytes returns
    the next chunk, or its first [space] bytes and keeps the others for
    the next call; an empty chunk is a call that returns no byte and no
    error.

    Not modelled, because the split function of this package cannot
    bring them about ([scanLinesWithNL_bounds]): the scanner's [done]
    flag for [ErrFinalToken] and its panic on tokens that do not advance
    at the end of the input. *)

Definition MaxScanTokenSize : Z := 64 * 1024.

(** Size of initial allocation for buffer. *)
Definition startBufSize : Z := 4096.

Definition maxConsecutiveEmptyReads : nat := 100.

Definition maxInt : Z := 2 ^ (intSize - 1) - 1.

Definition ErrTooLong : error := ErrOther "bufio.Scanner: token too long".
Definition ErrNegativeAdvance : error :=
  ErrOther "bufio.Scanner: SplitFunc returns negative advance count".
Definition ErrAdvanceTooFar : error :=
  ErrOther "bufio.Scanner: SplitFunc returns advance count beyond input".
Definition ErrNoProgress : error :=
  ErrOther "multiple Read calls return no data or error".

Record Scanner : Type := {
  sbuf : bytes;
  sstart : Z;
  scap : Z;
  serr : option error;
  stok : bytes;
  srcChunks : list bytes;
  srcErr : error
}.

Definition NewScanner (chunks : list bytes) (e : error) : Scanner :=
  {| sbuf := []; sstart := 0; scap := 0; serr := None; stok := [];
     srcChunks := chunks; srcErr := e |}.

(** [s.setErr(err)]: records the first error that is not [io.EOF]. *)
Definition setErr (s : Scanner) (e : error) : Scanner :=
  match serr s with
  | None | Some EOF =>
      {| sbuf := sbuf s; sstart := sstart s; scap := scap s; serr := Some e;
         stok := stok s; srcChunks := srcChunks s; srcErr := srcErr s |}
  | Some _ => s
  end.

(** One call of the source's [Read] with room for [space] bytes: the
    bytes read, the chunks left and the error. *)
Definition srcRead (space : Z) (chunks : list bytes) (srcE : error)
  : bytes * list bytes * option error :=
  match chunks with
  | [] => ([], [], Some srcE)
  | c :: chunks' =>
      let n := Z.to_nat (Z.min space (len c)) in
      (firstn n c,
       if (length c <=? n)%nat then chunks' else skipn n c :: chunks',
       None)
  end.

(** The loop [for loop := 0; ; ] of [Scan] around the source's [Read]:
    it ends with an error, with some bytes, or, after [tries] calls that
    returned nothing, with [io.ErrNoProgress]. *)
Fixpoint readLoop (tries : nat) (space : Z) (chunks : list bytes) (srcE : error)
  : bytes * list bytes * option error :=
  match tries with
  | O => ([], chunks, Some ErrNoProgress)
  | S tries' =>
      let '(data, chunks', err) := srcRead space chunks srcE in
      match err with
      | Some e => (data, chunks', Some e)
      | None =>
          match data with
          | _ :: _ => (data, chunks', None)
          | [] => readLoop tries' space chunks' srcE
          end
      end
  end.

(** The first part of a pass of [Scan]'s loop: when there is something
    buffered or the source has ended, the split function is tried.  The
    result is what [Scan] returns ([inl]) or the scanner to go on with
    ([inr]). *)
Definition trySplit (rs : byte) (s : Scanner) : (bool * Scanner) + Scanner :=
  let atEOF := match serr s with Some _ => true | None => false end in
  if (0 <? len (sbuf s)) || atEOF then
    let '(advance, token) := scanLinesWithNL rs (sbuf s) atEOF in
    if advance <? 0 then inl (false, setErr s ErrNegativeAdvance)
    else if len (sbuf s) <? advance then inl (false, setErr s ErrAdvanceTooFar)
    else
      let s1 :=
        {| sbuf := skipn (Z.to_nat advance) (sbuf s);
           sstart := sstart s + advance; scap := scap s; serr := serr s;
           stok := match token with Some t => t | None => [] end;
           srcChunks := srcChunks s; srcErr := srcErr s |} in
      match token with
      | Some _ => inl (true, s1)
      | None => inr s1
      end
  else inr s.

(** The second part: the unconsumed bytes are moved to the beginning of
    the buffer if there's lots of empty space or space is needed, and a
    full buffer is doubled, up to [MaxScanTokenSize]; a full buffer of
    that size is the error [ErrTooLong]. *)
Definition makeRoom (s : Scanner) : (bool * Scanner) + Scanner :=
  let s :=
    if (0 <? sstart s) &&
       ((sstart s + len (sbuf s) =? scap s) || (Z.quot (scap s) 2 <? sstart s))
    then {| sbuf := sbuf s; sstart := 0; scap := scap s; serr := serr s;
            stok := stok s; srcChunks := srcChunks s; srcErr := srcErr s |}
    else s in
  if sstart s + len (sbuf s) =? scap s then
    if (MaxScanTokenSize <=? scap s) || (Z.quot maxInt 2 <? scap s)
    then inl (false, setErr s ErrTooLong)
    else
      let newSize := scap s * 2 in
      let newSize := if newSize =? 0 then startBufSize else newSize in
      let newSize :=
        if MaxScanTokenSize <? newSize then MaxScanTokenSize else newSize in
      inr {| sbuf := sbuf s; sstart := 0; scap := newSize; serr := serr s;
             stok := stok s; srcChunks := srcChunks s; srcErr := srcErr s |}
  else inr s.

(** The third part: finally we can read some input. *)
Definition fill (s : Scanner) : Scanner :=
  let '(data, chunks, err) :=
    readLoop (S maxConsecutiveEmptyReads)
             (scap s - (sstart s + len (sbuf s))) (srcChunks s) (srcErr s) in
  let s :=
    {| sbuf := sbuf s ++ data; sstart := sstart s; scap := scap s;
       serr := serr s; stok := stok s; srcChunks := chunks;
       srcErr := srcErr s |} in
  match err with
  | Some e => setErr s e
  | None => s
  end.

(** [Scan]'s loop, for at most [fuel] passes. *)
Fixpoint scanLoop (fuel : nat) (rs : byte) (s : Scanner)
  : option (bool * Scanner) :=
  match fuel with
  | O => None
  | S fuel' =>
      match trySplit rs s with
      | inl r => Some r
      | inr s =>
          match serr s with
          | Some _ =>
              (* Shut it down. *)
              Some (false,
                    {| sbuf := []; sstart := 0; scap := scap s; serr := serr s;
                       stok := stok s; srcChunks := srcChunks s;
                       srcErr := srcErr s |})
          | None =>
              match makeRoom s with
              | inl r => Some r
              | inr s => scanLoop fuel' rs (fill s)
              end
          end
      end
  end.

(** [s.Scan()].  Every pass but the last two reads at least one byte
    from the source, so the loop is over within the passes given here
    ([scanLoop_returns]). *)
Definition Scan (rs : byte) (s : Scanner) : bool * Scanner :=
  match scanLoop (S (S (length (concat (srcChunks s))))) rs s with
  | Some r => r
  | None => (false, s)
  end.

(** [scanner.Err()]: the first error that was not [io.EOF]. *)
Definition ScannerErr (s : Scanner) : option error :=
  match serr s with
  | Some EOF => None
  | other => other
  end.

Definition ScannerBytes (s : Scanner) : bytes := stok s.

(** ** Reader *)

Section Reader.

Variable U : Type.

(** The closures that end up in [filterFuncs]:
    - [UserFunc f]: a callback given to [MapErr], directly or wrapped by
      [Map], [MapString], [MapStringErr], [Grep], [GrepString],
      [GrepByRegexp];
    - [AWKFunc f]: the closure [AWKMode] builds around the callback [f];
    - [CollectFunc k]: the closure [ReadAllSlice] or [ReadAllSliceString]
      builds around its local variable [result], the [k]-th such variable
      allocated. *)
Inductive FilterFunc : Type :=
| UserFunc (filterFn : bytes -> U -> bytes * option error * U)
| AWKFunc (filterFn : bytes -> list bytes -> AWKVars -> U -> bytes * option error * U)
| CollectFunc (k : nat).

(** line by line Reader.  [results] holds the [result] variables captured
    by collecting closures and [user] the state owned by user callbacks. *)
Record Reader : Type := {
  scanner : Scanner;
  filterFuncs : list FilterFunc;
  awkVars : AWKVars;
  results : list (list bytes);
  user : U
}.

Definition set_scanner (lr : Reader) (x : Scanner) : Reader :=
  {| scanner := x; filterFuncs := filterFuncs lr; awkVars := awkVars lr;
     results := results lr; user := user lr |}.
Definition set_filterFuncs (lr : Reader) (x : list FilterFunc) : Reader :=
  {| scanner := scanner lr; filterFuncs := x; awkVars := awkVars lr;
     results := results lr; user := user lr |}.
Definition set_awkVars (lr : Reader) (x : AWKVars) : Reader :=
  {| scanner := scanner lr; filterFuncs := filterFuncs lr; awkVars := x;
     results := results lr; user := user lr |}.
Definition set_results (lr : Reader) (x : list (list bytes)) : Reader :=
  {| scanner := scanner lr; filterFuncs := filterFuncs lr; awkVars := awkVars lr;
     results := x; user := user lr |}.
Definition set_user (lr : Reader) (x : U) : Reader :=
  {| scanner := scanner lr; filterFuncs := filterFuncs lr; awkVars := awkVars lr;
     results := results lr; user := x |}.

(** get new line by line Reader over a source that delivers [chunks] and
    then fails with [e] *)
Definition NewReader (chunks : list bytes) (e : error) (u : U) : Reader :=
  {| scanner := NewScanner chunks e;
     filterFuncs := [];
     awkVars := {| NR := 0; NF := 0; RS := defaultRS; FS := defaultFS |};
     results := [];
     user := u |}.

(** [result = append(result, x)] on the [k]-th captured variable. *)
Fixpoint appendAt (k : nat) (x : bytes) (cells : list (list bytes))
  : list (list bytes) :=
  match cells, k with
  | [], _ => []
  | c :: cs, O => (c ++ [x]) :: cs
  | c :: cs, S k' => c :: appendAt k' x cs
  end.

(** What the closure of [AWKMode] hands to the callback: the line without
    its separator, the fields, and the reader's variables after [NF] was
    set; and whether the separator was stripped. *)
Definition awkArgs (line : bytes) (vars : AWKVars)
  : bool * bytes * list bytes * AWKVars :=
  let addRS := HasSuffix line (stringOfByte (RS vars)) in
  let line := if addRS then TrimSuffix line (stringOfByte (RS vars)) else line in
  let fields := Split (FS vars) line (-1) in
  (addRS, line, fields, set_NF vars (len fields)).

(** Running one closure of [filterFuncs] on [line]. *)
Definition call (filterFunc : FilterFunc) (line : bytes) (lr : Reader)
  : bytes * option error * Reader :=
  match filterFunc with
  | UserFunc filterFn =>
      let '(out, err, u) := filterFn line (user lr) in
      (out, err, set_user lr u)
  | AWKFunc filterFn =>
      let '(addRS, line, fields, vars) := awkArgs line (awkVars lr) in
      let lr := set_awkVars lr vars in
      let '(result, err, u) := filterFn line fields (awkVars lr) (user lr) in
      let lr := set_user lr u in
      match err with
      | Some e => ([], Some e, lr)
      | None =>
          if negb (HasSuffix result (stringOfByte (RS (awkVars lr)))) && addRS
          then (result ++ stringOfByte (RS (awkVars lr)), None, lr)
          else (result, None, lr)
      end
  | CollectFunc k =>
      (nullBytes, None, set_results lr (appendAt k line (results lr)))
  end.

(** The [for _, filterFunc := range lr.filterFuncs] loop of [Read]; the
    result is [lineBytes] and [bufErr] after the loop. *)
Fixpoint applyFilters (fs : list FilterFunc) (lineBytes : bytes) (lr : Reader)
  : bytes * option error * Reader :=
  match fs with
  | [] => (lineBytes, None, lr)
  | filterFunc :: rest =>
      let '(lineBytes, filterErr, lr) := call filterFunc lineBytes lr in
      match filterErr with
      | Some ErrOmitLine => (nullBytes, None, lr)
      | Some e => (lineBytes, Some e, lr)
      | None => applyFilters rest lineBytes lr
      end
  end.

(** The builtin [copy(dst, src)]: the new contents of [dst] and the number
    of bytes copied. *)
Definition copy (dst src : bytes) : bytes * Z :=
  let n := Z.min (len dst) (len src) in
  (firstn (Z.to_nat n) src ++ skipn (Z.to_nat n) dst, n).

(** implement io.Reader interface: the results [n] and [err], the new
    contents of [p] and the reader afterwards *)
Definition Read (p : bytes) (lr : Reader) : Z * option error * bytes * Reader :=
  let '(ok, sc) := Scan (RS (awkVars lr)) (scanner lr) in
  let lr := set_scanner lr sc in
  let '(lineBytes, bufErr, lr) :=
    if ok then
      let lineBytes := ScannerBytes (scanner lr) in
      let lr := set_awkVars lr (set_NR (awkVars lr) (wrapInt (NR (awkVars lr) + 1))) in
      applyFilters (filterFuncs lr) lineBytes lr
    else
      let bufErr := ScannerErr (scanner lr) in
      (nullBytes,
       Some (match bufErr with Some e => e | None => EOF end),
       lr) in
  (len lineBytes, bufErr, fst (copy p lineBytes), lr).

(** set filter function for process each line, returns error if needed
    (io.EOF for example) *)
Definition MapErr (filterFn : FilterFunc) (lr : Reader) : Reader :=
  set_filterFuncs lr (filterFuncs lr ++ [filterFn]).

(** set filter function for process each line *)
Definition Map (filterFn : bytes -> U -> bytes * U) (lr : Reader) : Reader :=
  MapErr (UserFunc (fun line u =>
    let '(out, u) := filterFn line u in (out, None, u))) lr.

(** set filter function for process each line as string *)
Definition MapString (filterFn : bytes -> U -> bytes * U) (lr : Reader) : Reader :=
  MapErr (UserFunc (fun line u =>
    let '(out, u) := filterFn line u in (out, None, u))) lr.

(** set filter function for process each line as string, returns error if
    needed (io.EOF for example) *)
Definition MapStringErr (filterFn : bytes -> U -> bytes * option error * U)
  (lr : Reader) : Reader :=
  MapErr (UserFunc (fun line u =>
    let '(newString, err, u) := filterFn line u in (newString, err, u))) lr.

(** grep lines by func *)
Definition Grep (filterFn : bytes -> U -> bool * U) (lr : Reader) : Reader :=
  MapErr (UserFunc (fun line u =>
    let '(keep, u) := filterFn line u in
    if keep then (line, None, u) else (nullBytes, Some ErrOmitLine, u))) lr.

(** grep lines as string by func *)
Definition GrepString (filterFn : bytes -> U -> bool * U) (lr : Reader) : Reader :=
  Grep (fun line u => filterFn line u) lr.

(** grep lines by regexp *)
Definition GrepByRegexp (re : Regexp) (lr : Reader) : Reader :=
  Grep (fun line u => (Match re line, u)) lr.

(** set lines (records) separator *)
Definition SetRS (rs : byte) (lr : Reader) : Reader :=
  set_awkVars lr (set_RS (awkVars lr) rs).

(** set field separator for AWK mode *)
Definition SetFS (fs : Regexp) (lr : Reader) : Reader :=
  set_awkVars lr (set_FS (awkVars lr) fs).

(** process lines with AWK like mode *)
Definition AWKMode
  (filterFn : bytes -> list bytes -> AWKVars -> U -> bytes * option error * U)
  (lr : Reader) : Reader :=
  MapErr (AWKFunc filterFn) lr.

(** The loop of [io.Copy(ioutil.Discard, lr)]: [Read] into the same
    buffer until an error comes back; [io.EOF] is a clean end.  [None]
    when [fuel] calls of [Read] were not enough. *)
Fixpoint drain (fuel : nat) (buf : bytes) (lr : Reader)
  : option (option error * Reader) :=
  match fuel with
  | O => None
  | S fuel' =>
      let '(_, err, buf, lr) := Read buf lr in
      match err with
      | Some EOF => Some (None, lr)
      | Some e => Some (Some e, lr)
      | None => drain fuel' buf lr
      end
  end.

(** Bytes the scanner has not turned into records yet. *)
Definition pending (s : Scanner) : nat :=
  length (sbuf s) + length (concat (srcChunks s)).

(** The buffer [ioutil.Discard] reads into. *)
Definition discardBuf : bytes := repeat x00 (Z.to_nat 8192).

(** read all content from Reader for side effect from filter functions *)
Definition Discard (lr : Reader) : option (option error * Reader) :=
  drain (S (pending (scanner lr))) discardBuf lr.

(** The first two statements of [ReadAllSlice] and [ReadAllSliceString]
    up to the call of [Discard]: a fresh [result] variable is allocated and
    the closure that appends to it and returns an empty line is handed to
    [Map] (or [MapString]). *)
Definition collecting (lr : Reader) : Reader :=
  MapErr (CollectFunc (length (results lr)))
         (set_results lr (results lr ++ [[]])).

(** read all content from Reader by lines to slice of []byte.  The
    slices the code collects share the scanner's buffer; as slices are
    values here, the result stands for their contents at the time they
    were collected. *)
Definition ReadAllSlice (lr : Reader)
  : option (list bytes * option error * Reader) :=
  let k := length (results lr) in
  match Discard (collecting lr) with
  | Some (err, lr) => Some (nth k (results lr) [], err, lr)
  | None => None
  end.

(** read all content from Reader to string slice by lines *)
Definition ReadAllSliceString (lr : Reader)
  : option (list bytes * option error * Reader) :=
  let k := length (results lr) in
  match Discard (collecting lr) with
  | Some (err, lr) => Some (nth k (results lr) [], err, lr)
  | None => None
  end.

(** ** Notions used to state the properties *)

(** The reader on which [Read] runs the filter chain once [Scan] has
    delivered a record and left the scanner as [sc]. *)
Definition scanned (lr : Reader) (sc : Scanner) : Reader :=
  let lr := set_scanner lr sc in
  set_awkVars lr (set_NR (awkVars lr) (wrapInt (NR (awkVars lr) + 1))).

(** All the functions of [fs], applied in order from [line], return a nil
    error: the last output and the reader afterwards. *)
Fixpoint passAll (fs : list FilterFunc) (line : bytes) (lr : Reader)
  : option (bytes * Reader) :=
  match fs with
  | [] => Some (line, lr)
  | f :: rest =>
      match call f line lr with
      | (out, None, lr') => passAll rest out lr'
      | (_, Some _, _) => None
      end
  end.

(** [Drained lr buf lr' buf']: a bulk drain that starts at [lr] with the
    buffer [buf] gets to [lr'] and [buf'] after some calls of [Read] that
    all returned a nil error. *)
Inductive Drained : Reader -> bytes -> Reader -> bytes -> Prop :=
| Drained_here (lr : Reader) (buf : bytes) : Drained lr buf lr buf
| Drained_read (lr : Reader) (buf : bytes) (n : Z) (buf1 : bytes) (lr1 lr' : Reader)
    (buf' : bytes) :
    Read buf lr = (n, None, buf1, lr1) ->
    Drained lr1 buf1 lr' buf' ->
    Drained lr buf lr' buf'.

(** [Pulled lr n lr']: [lr'] is [lr] after some calls of [Read], [n] of
    which got a record from the tokenizer, and of the builder methods. *)
Inductive Pulled : Reader -> nat -> Reader -> Prop :=
| Pulled_start (lr : Reader) : Pulled lr 0 lr
| Pulled_record (lr : Reader) (n : nat) (lr1 : Reader) (p : bytes) (sc : Scanner) :
    Pulled lr n lr1 ->
    Scan (RS (awkVars lr1)) (scanner lr1) = (true, sc) ->
    Pulled lr (S n) (snd (Read p lr1))
| Pulled_end (lr : Reader) (n : nat) (lr1 : Reader) (p : bytes) (sc : Scanner) :
    Pulled lr n lr1 ->
    Scan (RS (awkVars lr1)) (scanner lr1) = (false, sc) ->
    Pulled lr n (snd (Read p lr1))
| Pulled_MapErr (lr : Reader) (n : nat) (lr1 : Reader) (f : FilterFunc) :
    Pulled lr n lr1 -> Pulled lr n (MapErr f lr1)
| Pulled_SetRS (lr : Reader) (n : nat) (lr1 : Reader) (rs : byte) :
    Pulled lr n lr1 -> Pulled lr n (SetRS rs lr1)
| Pulled_SetFS (lr : Reader) (n : nat) (lr1 : Reader) (fs : Regexp) :
    Pulled lr n lr1 -> Pulled lr n (SetFS fs lr1).

(** Every collecting closure of the chain captures a variable that was
    allocated. *)
Definition capturesAllocated (lr : Reader) : Prop :=
  Forall (fun f => match f with
                   | CollectFunc k => (k < length (results lr))%nat
                   | _ => True
                   end) (filterFuncs lr).

(** [f] is not the collecting closure of the [k]-th captured variable. *)
Definition otherThan (k : nat) (f : FilterFunc) : Prop :=
  match f with
  | CollectFunc j => j <> k
  | _ => True
  end.

(** The closure [Grep] builds around a predicate that always returns
    false. *)
Definition grepNothing : FilterFunc :=
  UserFunc (fun line u =>
    let '(keep, u) := (false, u) in
    if keep then (line, None, u) else (nullBytes, Some ErrOmitLine, u)).

(** An AWK callback that returns its input unchanged. *)
Definition awkIdentity (line : bytes) (fields : list bytes) (vars : AWKVars) (u : U)
  : bytes * option error * U :=
  (line, None, u).

End Reader.

Arguments UserFunc {U}.
Arguments AWKFunc {U}.
Arguments CollectFunc {U}.
Arguments scanner {U}.
Arguments filterFuncs {U}.
Arguments awkVars {U}.
Arguments results {U}.
Arguments user {U}.
Arguments set_scanner {U}.
Arguments set_filterFuncs {U}.
Arguments set_awkVars {U}.
Arguments set_results {U}.
Arguments set_user {U}.
Arguments NewReader {U}.
Arguments call {U}.
Arguments applyFilters {U}.
Arguments Read {U}.
Arguments MapErr {U}.
Arguments Map {U}.
Arguments MapString {U}.
Arguments MapStringErr {U}.
Arguments Grep {U}.
Arguments GrepString {U}.
Arguments GrepByRegexp {U}.
Arguments SetRS {U}.
Arguments SetFS {U}.
Arguments AWKMode {U}.
Arguments drain {U}.
Arguments Discard {U}.
Arguments ReadAllSlice {U}.
Arguments ReadAllSliceString {U}.
Arguments collecting {U}.
Arguments scanned {U}.
Arguments passAll {U}.
Arguments Drained {U}.
Arguments Pulled {U}.
Arguments capturesAllocated {U}.
Arguments grepNothing {U}.
Arguments otherThan {U}.
Arguments awkIdentity {U}.
Arguments appendAt k x cells : simpl nomatch.

(** ** Running the tokenizer to the end *)

(** The records successive calls of [Scan] yield until it reports false;
    [None] when [fuel] calls were not enough to get there. *)
Fixpoint scanAll (fuel : nat) (rs : byte) (s : Scanner) : option (list bytes) :=
  match fuel with
  | O => None
  | S fuel' =>
      match Scan rs s with
      | (true, s') =>
          match scanAll fuel' rs s' with
          | Some toks => Some (ScannerBytes s' :: toks)
          | None => None
          end
      | (false, _) => Some []
      end
  end.

Definition tokenize (rs : byte) (s : Scanner) : option (list bytes) :=
  scanAll (S (pending s)) rs s.

(** The input made of the separator-terminated fragments [frs] followed by
    the fragment [final]. *)
Definition joinRecords (rs : byte) (frs : list bytes) (final : bytes) : bytes :=
  concat (map (fun r => r ++ [rs]) frs) ++ final.

(** The records of such an input, as the specification describes them. *)
Definition expectedRecords (rs : byte) (frs : list bytes) (final : bytes)
  : list bytes :=
  map (fun r => r ++ [rs]) frs ++ match final with [] => [] | _ :: _ => [final] end.

(** What the scanner has still to deliver as records. *)
Definition rest (s : Scanner) : bytes :=
  match serr s with
  | Some _ => sbuf s
  | None => sbuf s ++ concat (srcChunks s)
  end.

Definition nl : bytes := [x0a].

Definition fooBarBaz : bytes := B "foo" ++ nl ++ B "bar" ++ nl ++ B "baz".

(** ** Notions for the properties of a whole stream *)

(** The records of [data]: it is cut after every separator, and what
    follows the last separator, when not empty, is the last record. *)
Fixpoint splitRecords (rs : byte) (data : bytes) : list bytes :=
  match data with
  | [] => []
  | x :: data' =>
      if Byte.eqb x rs then [x] :: splitRecords rs data'
      else
        match splitRecords rs data' with
        | [] => [[x]]
        | r :: recs => (x :: r) :: recs
        end
  end.

(** The empty chunks at the head of [chunks]. *)
Fixpoint leadingEmpties (chunks : list bytes) : nat :=
  match chunks with
  | [] :: chunks' => S (leadingEmpties chunks')
  | _ => O
  end.

(** The error the scanner ends with once the source has no byte left:
    the one it has met, or else the one its source returns after the last
    chunk, or [io.ErrNoProgress] if more than [maxConsecutiveEmptyReads]
    empty reads come first. *)
Definition lastErr (s : Scanner) : error :=
  match serr s with
  | Some e => e
  | None =>
      if (maxConsecutiveEmptyReads <? leadingEmpties (srcChunks s))%nat
      then ErrNoProgress
      else srcErr s
  end.

(** No more than [maxConsecutiveEmptyReads] empty chunks in a row, [run]
    of them having just passed. *)
Fixpoint quietFrom (run : nat) (chunks : list bytes) : bool :=
  match chunks with
  | [] => true
  | [] :: chunks' =>
      (S run <=? maxConsecutiveEmptyReads)%nat && quietFrom (S run) chunks'
  | (_ :: _) :: chunks' => quietFrom 0 chunks'
  end.

Definition quiet (chunks : list bytes) : bool := quietFrom 0 chunks.

(** Every record of [data] is shorter than the scanner's limit. *)
Definition recordsFit (rs : byte) (data : bytes) : Prop :=
  Forall (fun t => len t < MaxScanTokenSize) (splitRecords rs data).

(** The offsets of the scanner's buffer are in order and the buffer is
    within its limit. *)
Definition bufferInOrder (s : Scanner) : Prop :=
  0 <= sstart s /\ sstart s + len (sbuf s) <= scap s /\
  scap s <= MaxScanTokenSize.

(** The scanner can deliver every record of what is left: its buffer is
    in order, the source makes progress and the records fit.  Nothing is
    asked of a scanner whose source has ended. *)
Definition scannable (rs : byte) (s : Scanner) : Prop :=
  match serr s with
  | Some _ => True
  | None =>
      bufferInOrder s /\ quiet (srcChunks s) = true /\
      recordsFit rs (sbuf s ++ concat (srcChunks s))
  end.

(** The scanner [s'] has the source of [s] in the state of [s]. *)
Definition sameSource (s s' : Scanner) : Prop :=
  serr s' = serr s /\ srcChunks s' = srcChunks s /\ srcErr s' = srcErr s /\
  scap s' = scap s.

(** What the closure of [AWKMode] returns for the result [r] of the
    callback, [addRS] telling whether the separator was stripped. *)
Definition awkOutput (addRS : bool) (rs : byte) (r : bytes * option error)
  : bytes * option error :=
  match r with
  | (_, Some e) => ([], Some e)
  | (result, None) =>
      (if negb (HasSuffix result (stringOfByte rs)) && addRS
       then result ++ stringOfByte rs else result, None)
  end.

(** What the loop of [io.Copy(ioutil.Discard, lr)] returns for the error
    [e] of a call of [Read]. *)
Definition drainErr (e : error) : option error :=
  match e with
  | EOF => None
  | _ => Some e
  end.

(** A filter function in its canonical shape, without state. *)
Definition pureFilter : Type := bytes -> bytes * option error.

(** The chain [gs] on one record: the output and error of the first
    function that returns an error, or the last output. *)
Fixpoint runChain (gs : list pureFilter) (line : bytes) : bytes * option error :=
  match gs with
  | [] => (line, None)
  | g :: rest =>
      match g line with
      | (out, None) => runChain rest out
      | (out, Some e) => (out, Some e)
      end
  end.

(** What a collector placed after the chain [gs] has gathered when the
    drain over [records] returns, and the error of the drain; [endE] is
    the error of the drain when the records run out. *)
Fixpoint collected (gs : list pureFilter) (endE : option error)
  (records : list bytes) : list bytes * option error :=
  match records with
  | [] => ([], endE)
  | r :: records' =>
      match runChain gs r with
      | (out, None) =>
          let '(l, e) := collected gs endE records' in (out :: l, e)
      | (_, Some ErrOmitLine) => collected gs endE records'
      | (_, Some e) => ([], drainErr e)
      end
  end.

(** What the closure of [AWKMode] around a callback that returns its
    input unchanged computes, for the separator [rs]. *)
Definition awkIdentityFilter (rs : byte) : pureFilter :=
  fun line =>
    if HasSuffix line (stringOfByte rs) then
      let content := TrimSuffix line (stringOfByte rs) in
      (if HasSuffix content (stringOfByte rs) then content
       else content ++ stringOfByte rs, None)
    else (line, None).

Section StreamNotions.

Variable U : Type.

(** On a reader whose separator is [rs], the closure [f] returns what the
    stateless function [g] returns. *)
Definition actsAs (rs : byte) (f : FilterFunc U) (g : pureFilter) : Prop :=
  forall line (lr : Reader U),
    RS (awkVars lr) = rs -> fst (call f line lr) = g line.

(** The closure [f] never returns an error other than [ErrOmitLine]. *)
Definition neverFails (f : FilterFunc U) : Prop :=
  forall line (lr : Reader U),
    match snd (fst (call f line lr)) with
    | None | Some ErrOmitLine => True
    | Some _ => False
    end.

(** [lr'] is [lr] after some filter functions ran: the scanner, the
    chain, the separator and the [k]-th captured variable are the same. *)
Definition sameStream (k : nat) (lr lr' : Reader U) : Prop :=
  scanner lr' = scanner lr /\ filterFuncs lr' = filterFuncs lr /\
  RS (awkVars lr') = RS (awkVars lr) /\
  length (results lr') = length (results lr) /\
  nth k (results lr') [] = nth k (results lr) [].

End StreamNotions.

Arguments actsAs {U}.
Arguments neverFails {U}.
Arguments sameStream {U}.

(** ** Concrete pipelines *)

Definition fooLine : bytes := B "foo" ++ nl.

Definition buf16 : bytes := repeat x00 16.

Definition buf2 : bytes := repeat x00 2.

(** A callback for [MapErr] that returns its line together with [e]. *)
Definition failWith (e : error) : FilterFunc unit :=
  UserFunc (fun line u => (line, Some e, u)).

(** [NewReader(src).MapErr(...)] over the input [foo\n], the callback
    failing with an error of its own. *)
Definition lrFailing : Reader unit :=
  MapErr (failWith (ErrOther "boom")) (NewReader [fooLine] EOF tt).

(** [NewReader(src)] over the input [foo\n]. *)
Definition lrFoo : Reader unit := NewReader [fooLine] EOF tt.

(** [NewReader(src).Grep(...)] over [foo\n], the predicate always false. *)
Definition lrGrepNothing : Reader unit :=
  Grep (fun _ u => (false, u)) (NewReader [fooLine] EOF tt).

(** [NewReader(src).MapErr(...)] over [foo\nbar\n], the callback
    returning [io.EOF]. *)
Definition lrEOF : Reader unit :=
  MapErr (failWith EOF) (NewReader [fooLine; B "bar" ++ nl] EOF tt).

(** A callback for [Map] that appends a newline to its line. *)
Definition addNewline (line : bytes) (u : unit) : bytes * unit := (line ++ nl, u).

(** [NewReader(src).Map(...).AWKMode(...)] over [a\n]: the first callback
    appends a newline, the AWK callback returns its input unchanged. *)
Definition lrDoubled : Reader unit :=
  AWKMode awkIdentity (Map addNewline (NewReader [B "a" ++ nl] EOF tt)).

(** [NewReader(src).AWKMode(...)] over [foo\n], the callback returning
    its input unchanged. *)
Definition lrAwkFoo : Reader unit :=
  AWKMode awkIdentity (NewReader [fooLine] EOF tt).

(** [NewReader(src).AWKMode(...)] over [foo\nbar], the callback returning
    its input unchanged. *)
Definition lrAwkTwo : Reader unit :=
  AWKMode awkIdentity (NewReader [fooLine; B "bar"] EOF tt).

(** [NewReader(src).GrepString(...)] over [foo\n], the predicate being
    [s == "foo"]. *)
Definition lrGrepFoo : Reader unit :=
  GrepString (fun s u => (bytes_eqb s (B "foo"), u)) (NewReader [fooLine] EOF tt).

(** The same with the predicate [s == "foo\n"]. *)
Definition lrGrepFooLine : Reader unit :=
  GrepString (fun s u => (bytes_eqb s fooLine, u)) (NewReader [fooLine] EOF tt).

(** [NewReader(src).AWKMode(...)] over the input made of one newline. *)
Definition lrAwkBlank : Reader unit :=
  AWKMode awkIdentity (NewReader [nl] EOF tt).

(** [NewReader(src).SetFS(...).AWKMode(...)] over the same input, the
    field separator being the empty pattern. *)
Definition lrEmptyFS : Reader unit :=
  AWKMode awkIdentity (SetFS emptyFS (NewReader [nl] EOF tt)).

(** [NewReader(src).MapErr(...)] over [foo\nbar\nbaz], the callback
    failing on the line [bar\n] and returning every other line as it is. *)
Definition lrFailOnBar : Reader unit :=
  MapErr (UserFunc (fun line u =>
            if bytes_eqb line (B "bar" ++ nl)
            then (line, Some (ErrOther "boom"), u)
            else (line, None, u)))
         (NewReader [fooBarBaz] EOF tt).

(** [NewReader(src)] over an empty input, the source failing with an
    error of its own. *)
Definition lrClosed : Reader unit := NewReader [] (ErrOther "closed") tt.

(** [NewReader(src).AWKMode(...)] over [bar], an input without separator,
    the callback returning its input unchanged. *)
Definition lrAwkBar : Reader unit :=
  AWKMode awkIdentity (NewReader [B "bar"] EOF tt).

(** A line of 64 KiB without separator. *)
Definition longLine : bytes := repeat x61 (Z.to_nat MaxScanTokenSize).
(** * Properties *)

(** ** Bytes and lists *)

Lemma byte_eqb_refl (x : byte) : Byte.eqb x x = true.
Proof. now apply Byte.byte_dec_lb. Qed.

Lemma byte_eqb_neq (x y : byte) : x <> y -> Byte.eqb x y = false.
Proof.
  intros Hne. destruct (Byte.eqb x y) eqn:E; [|reflexivity].
  now apply Byte.byte_dec_bl in E.
Qed.

Lemma len_nonneg {A : Type} (l : list A) : 0 <= len l.
Proof. unfold len. lia. Qed.

Lemma len_app {A : Type} (l1 l2 : list A) : len (l1 ++ l2) = len l1 + len l2.
Proof. unfold len. rewrite length_app. lia. Qed.

Lemma len_cons {A : Type} (x : A) (l : list A) : len (x :: l) = len l + 1.
Proof. unfold len. simpl length. lia. Qed.

Lemma IndexByte_lower (b : bytes) (c : byte) : -1 <= IndexByte b c.
Proof.
  induction b as [|x b IH]; simpl; [lia|].
  destruct (Byte.eqb x c); [lia|].
  destruct (IndexByte b c <? 0) eqn:E; [lia|].
  apply Z.ltb_ge in E. lia.
Qed.

Lemma IndexByte_absent (b : bytes) (c : byte) : ~ In c b -> IndexByte b c = -1.
Proof.
  induction b as [|x b IH]; simpl; intros Hn; [reflexivity|].
  rewrite byte_eqb_neq by (intros ->; apply Hn; now left).
  rewrite IH by (intros Hi; apply Hn; now right). reflexivity.
Qed.

Lemma IndexByte_first (r d : bytes) (c : byte) :
  ~ In c r -> IndexByte (r ++ c :: d) c = len r.
Proof.
  induction r as [|x r IH]; simpl; intros Hn.
  - now rewrite byte_eqb_refl.
  - rewrite byte_eqb_neq by (intros ->; apply Hn; now left).
    rewrite IH by (intros Hi; apply Hn; now right).
    pose proof (len_nonneg r) as Hr.
    destruct (len r <? 0) eqn:E; [apply Z.ltb_lt in E; lia|].
    rewrite len_cons. reflexivity.
Qed.

Lemma slice_prefix {A : Type} (r d : list A) :
  slice (r ++ d) 0 (len r) = r.
Proof.
  unfold slice, len. simpl skipn.
  replace (Z.to_nat (Z.of_nat (length r) - 0)) with (length r + 0)%nat by lia.
  rewrite firstn_app_2. simpl. apply app_nil_r.
Qed.

Lemma skipn_len_app {A : Type} (r d : list A) :
  skipn (Z.to_nat (len r)) (r ++ d) = d.
Proof.
  unfold len. rewrite Nat2Z.id. rewrite skipn_app, skipn_all, Nat.sub_diag.
  reflexivity.
Qed.

(** Where the first separator of [buf ++ more] lies. *)
Lemma first_sep_split (c : byte) (r d buf more : bytes) :
  ~ In c r -> buf ++ more = r ++ c :: d ->
  (exists d', buf = r ++ c :: d' /\ d = d' ++ more) \/
  (~ In c buf /\ exists r', r = buf ++ r' /\ more = r' ++ c :: d).
Proof.
  revert buf. induction r as [|x r IH]; intros buf Hn Heq.
  - destruct buf as [|y buf].
    + right. split; [intros []|]. exists []. simpl in *. now subst.
    + left. simpl in Heq. injection Heq as -> Heq. exists buf. now subst.
  - destruct buf as [|y buf].
    + right. split; [intros []|]. exists (x :: r). simpl in *. now subst.
    + simpl in Heq. injection Heq as -> Heq.
      destruct (IH buf) as [(d' & -> & ->) | (Hb & r' & -> & ->)];
        [intros Hi; apply Hn; now right | assumption | |].
      * left. exists d'. now split.
      * right. split.
        -- intros [<- | Hi]; [apply Hn; now left | now apply Hb].
        -- exists r'. now split.
Qed.

(** ** The split function, case by case *)

Lemma scanLinesWithNL_sep (rs : byte) (r d : bytes) (atEOF : bool) :
  ~ In rs r ->
  scanLinesWithNL rs (r ++ rs :: d) atEOF = (len r + 1, Some (r ++ [rs])).
Proof.
  intros Hn. unfold scanLinesWithNL.
  assert (Hlen : (len (r ++ rs :: d) =? 0) = false).
  { apply Z.eqb_neq. rewrite len_app, len_cons.
    pose proof (len_nonneg r). pose proof (len_nonneg d). lia. }
  rewrite Hlen, andb_false_r, IndexByte_first by assumption.
  pose proof (len_nonneg r) as Hr.
  destruct (0 <=? len r) eqn:E; [|apply Z.leb_gt in E; lia].
  f_equal. f_equal.
  replace (r ++ rs :: d) with ((r ++ [rs]) ++ d) by (now rewrite <- app_assoc).
  replace (len r + 1) with (len (r ++ [rs])) by (rewrite len_app; reflexivity).
  apply slice_prefix.
Qed.

Lemma scanLinesWithNL_more (rs : byte) (data : bytes) :
  ~ In rs data -> scanLinesWithNL rs data false = (0, None).
Proof.
  intros Hn. unfold scanLinesWithNL. simpl.
  now rewrite IndexByte_absent.
Qed.

Lemma scanLinesWithNL_final (rs : byte) (data : bytes) :
  ~ In rs data -> data <> [] ->
  scanLinesWithNL rs data true = (len data, Some data).
Proof.
  intros Hn Hne. unfold scanLinesWithNL.
  destruct data as [|x data]; [congruence|].
  rewrite len_cons.
  assert (E : (len data + 1 =? 0) = false).
  { apply Z.eqb_neq. pose proof (len_nonneg data). lia. }
  rewrite E. simpl andb. cbv iota.
  now rewrite IndexByte_absent.
Qed.

Lemma scanLinesWithNL_nothing (rs : byte) :
  scanLinesWithNL rs [] true = (0, None).
Proof. reflexivity. Qed.

Lemma skipn_sep (rs : byte) (r d : bytes) :
  skipn (Z.to_nat (len r + 1)) (r ++ rs :: d) = d.
Proof.
  replace (len r + 1) with (len (r ++ [rs])) by (rewrite len_app; reflexivity).
  replace (r ++ rs :: d) with ((r ++ [rs]) ++ d) by (now rewrite <- app_assoc).
  apply skipn_len_app.
Qed.

Lemma IndexByte_found (b : bytes) (c : byte) :
  0 <= IndexByte b c ->
  exists r d, b = r ++ c :: d /\ ~ In c r /\ IndexByte b c = len r.
Proof.
  induction b as [|x b IH]; simpl; intros H; [lia|].
  destruct (Byte.eqb x c) eqn:E.
  - apply Byte.byte_dec_bl in E. subst x.
    exists [], b. split; [reflexivity|]. split; [intros []|reflexivity].
  - destruct (IndexByte b c <? 0) eqn:E2; [lia|].
    apply Z.ltb_ge in E2. destruct (IH E2) as (r & d & -> & Hn & Hi).
    exists (x :: r), d. split; [reflexivity|]. split.
    + intros [-> | Hin]; [|now apply Hn].
      rewrite byte_eqb_refl in E. discriminate.
    + rewrite Hi, len_cons. reflexivity.
Qed.

Lemma IndexByte_negative (b : bytes) (c : byte) :
  IndexByte b c < 0 -> ~ In c b.
Proof.
  induction b as [|x b IH]; simpl; intros H; [intros []|].
  destruct (Byte.eqb x c) eqn:E; [lia|].
  destruct (IndexByte b c <? 0) eqn:E2.
  - apply Z.ltb_lt in E2. intros [-> | Hin]; [|now apply IH].
    rewrite byte_eqb_refl in E. discriminate.
  - apply Z.ltb_ge in E2. lia.
Qed.

(** ** The records of an input *)

Lemma joinRecords_cons (rs : byte) (r : bytes) (frs : list bytes) (final : bytes) :
  joinRecords rs (r :: frs) final = r ++ rs :: joinRecords rs frs final.
Proof.
  unfold joinRecords. simpl. now rewrite <- !app_assoc.
Qed.

Lemma count_occ_absent (rs : byte) (l : bytes) :
  ~ In rs l -> count_occ Byte.byte_eq_dec l rs = 0%nat.
Proof. intros Hn. now apply count_occ_not_In. Qed.

Lemma count_occ_joinRecords (rs : byte) (frs : list bytes) (final : bytes) :
  Forall (fun r => ~ In rs r) frs -> ~ In rs final ->
  count_occ Byte.byte_eq_dec (joinRecords rs frs final) rs = length frs.
Proof.
  intros Hf Hn. induction Hf as [|r frs Hr Hf IH].
  - unfold joinRecords. simpl. now apply count_occ_absent.
  - rewrite joinRecords_cons, count_occ_app, count_occ_absent by assumption.
    rewrite count_occ_cons_eq by reflexivity. simpl. now rewrite IH.
Qed.

Lemma length_expectedRecords (rs : byte) (frs : list bytes) (final : bytes) :
  length (expectedRecords rs frs final) =
  (length frs + match final with [] => 0 | _ :: _ => 1 end)%nat.
Proof.
  unfold expectedRecords. rewrite length_app, length_map.
  destruct final; reflexivity.
Qed.

(** Every input is a sequence of separator-terminated fragments followed
    by a last fragment, none of which contains the separator. *)
Lemma joinRecords_exists (rs : byte) (data : bytes) :
  exists frs final,
    Forall (fun r => ~ In rs r) frs /\ ~ In rs final /\
    data = joinRecords rs frs final.
Proof.
  induction data as [|x data (frs & final & Hf & Hn & ->)].
  - exists [], []. split; [constructor | split; [intros [] | reflexivity]].
  - destruct (Byte.byte_eq_dec x rs) as [->|Hne].
    + exists ([] :: frs), final. split; [|split; [assumption | reflexivity]].
      constructor; [intros [] | assumption].
    + destruct frs as [|r frs].
      * exists [], (x :: final). split; [constructor | split; [|reflexivity]].
        intros [E | Hi]; [now apply Hne | now apply Hn].
      * exists ((x :: r) :: frs), final.
        split; [|split; [assumption | reflexivity]].
        inversion Hf; subst. constructor; [|assumption].
        intros [E | Hi]; [now apply Hne | contradiction].
Qed.

Lemma splitRecords_sep (rs : byte) (r d : bytes) :
  ~ In rs r ->
  splitRecords rs (r ++ rs :: d) = (r ++ [rs]) :: splitRecords rs d.
Proof.
  induction r as [|x r IH]; intros Hn; simpl.
  - now rewrite byte_eqb_refl.
  - rewrite byte_eqb_neq by (intros ->; apply Hn; now left).
    rewrite IH by (intros Hi; apply Hn; now right). reflexivity.
Qed.

Lemma splitRecords_final (rs : byte) (final : bytes) :
  ~ In rs final ->
  splitRecords rs final = match final with [] => [] | _ :: _ => [final] end.
Proof.
  induction final as [|x final IH]; intros Hn; simpl; [reflexivity|].
  rewrite byte_eqb_neq by (intros ->; apply Hn; now left).
  rewrite IH by (intros Hi; apply Hn; now right).
  destruct final; reflexivity.
Qed.

Lemma splitRecords_joinRecords (rs : byte) (frs : list bytes) (final : bytes) :
  Forall (fun r => ~ In rs r) frs -> ~ In rs final ->
  splitRecords rs (joinRecords rs frs final) = expectedRecords rs frs final.
Proof.
  intros Hf Hn. induction Hf as [|r frs Hr Hf IH].
  - unfold joinRecords, expectedRecords. simpl. now apply splitRecords_final.
  - rewrite joinRecords_cons, splitRecords_sep, IH by assumption. reflexivity.
Qed.

Lemma concat_splitRecords (rs : byte) (data : bytes) :
  concat (splitRecords rs data) = data.
Proof.
  induction data as [|x data IH]; simpl; [reflexivity|].
  destruct (Byte.eqb x rs); simpl; [now rewrite IH|].
  destruct (splitRecords rs data) as [|r recs]; simpl in *; now rewrite <- IH.
Qed.

(** ** The source *)

Lemma len_firstn_le {A : Type} (n : nat) (l : list A) :
  len (firstn n l) <= Z.of_nat n.
Proof. unfold len. rewrite length_firstn. lia. Qed.

Lemma srcRead_chunks (n : nat) (c : bytes) (chunks : list bytes) :
  firstn n c ++ concat (if (length c <=? n)%nat then chunks else skipn n c :: chunks)
  = c ++ concat chunks.
Proof.
  destruct (length c <=? n)%nat eqn:E.
  - apply Nat.leb_le in E. now rewrite firstn_all2.
  - simpl. now rewrite app_assoc, firstn_skipn.
Qed.

Lemma readLoop_spec (tries : nat) :
  forall space chunks srcE data chunks' err,
    readLoop tries space chunks srcE = (data, chunks', err) ->
    data ++ concat chunks' = concat chunks /\
    len data <= Z.max 0 space /\
    (err = None -> data <> []).
Proof.
  induction tries as [|tries IH]; intros space chunks srcE data chunks' err H;
    simpl in H.
  - injection H as <- <- <-. split; [reflexivity|]. split; [|discriminate].
    unfold len. simpl. lia.
  - destruct chunks as [|c chunks]; simpl in H.
    + injection H as <- <- <-. split; [reflexivity|]. split; [|discriminate].
      unfold len. simpl. lia.
    + pose proof (srcRead_chunks (Z.to_nat (Z.min space (len c))) c chunks) as Hc.
      pose proof (len_firstn_le (Z.to_nat (Z.min space (len c))) c) as Hl.
      destruct (firstn (Z.to_nat (Z.min space (len c))) c) as [|x data0] eqn:Hd.
      * destruct (IH _ _ _ _ _ _ H) as (H1 & H2 & H3).
        split; [|split; assumption]. rewrite H1. simpl in Hc. exact Hc.
      * injection H as <- <- <-. split; [exact Hc|]. split; [lia | discriminate].
Qed.

Lemma readLoop_quiet (chunks : list bytes) :
  forall run tries space srcE,
    0 < space -> (run <= maxConsecutiveEmptyReads)%nat ->
    (tries + run = S maxConsecutiveEmptyReads)%nat ->
    quietFrom run chunks = true ->
    (concat chunks = [] ->
     readLoop tries space chunks srcE = ([], [], Some srcE)) /\
    (concat chunks <> [] ->
     exists data chunks',
       readLoop tries space chunks srcE = (data, chunks', None) /\
       quiet chunks' = true).
Proof.
  induction chunks as [|c chunks IH]; intros run tries space srcE Hsp Hrun Ht Hq.
  - destruct tries as [|tries]; [lia|].
    split; [reflexivity | intros H; exfalso; now apply H].
  - destruct tries as [|tries]; [lia|].
    destruct c as [|x c].
    + cbn [quietFrom] in Hq. apply andb_true_iff in Hq as [Hle Hq].
      apply Nat.leb_le in Hle.
      cbn [readLoop srcRead].
      replace (Z.to_nat (Z.min space (len (@nil byte)))) with 0%nat
        by (unfold len; simpl; lia).
      cbn [firstn length Nat.leb concat app].
      apply (IH (S run) tries space srcE); try assumption; lia.
    + cbn [quietFrom] in Hq. split; [discriminate|]. intros _.
      cbn [readLoop srcRead].
      assert (Hn : exists n, Z.to_nat (Z.min space (len (x :: c))) = S n).
      { exists (Z.to_nat (Z.min space (len (x :: c))) - 1)%nat.
        rewrite len_cons. pose proof (len_nonneg c). lia. }
      destruct Hn as (n & ->). cbn [firstn].
      eexists _, _. split; [reflexivity|].
      unfold quiet. destruct (length (x :: c) <=? S n)%nat eqn:E; [exact Hq|].
      apply Nat.leb_gt in E. cbn [length] in E.
      destruct (skipn (S n) (x :: c)) as [|y tl] eqn:Hs; [|exact Hq].
      apply (f_equal (@length byte)) in Hs. rewrite length_skipn in Hs.
      cbn [length] in Hs. lia.
Qed.

Lemma all_empty_leading (chunks : list bytes) :
  concat chunks = [] -> leadingEmpties chunks = length chunks.
Proof.
  induction chunks as [|c chunks IH]; simpl; intros H; [reflexivity|].
  apply app_eq_nil in H as [-> H]. now rewrite IH.
Qed.

Lemma readLoop_all_empty (tries : nat) :
  forall chunks space srcE,
    concat chunks = [] ->
    exists chunks',
      readLoop tries space chunks srcE =
      ([], chunks',
       Some (if (tries <=? length chunks)%nat then ErrNoProgress else srcE)) /\
      concat chunks' = [].
Proof.
  induction tries as [|tries IH]; intros chunks space srcE He.
  - exists chunks. split; [reflexivity | exact He].
  - destruct chunks as [|c chunks].
    + exists []. split; reflexivity.
    + simpl in He. apply app_eq_nil in He as [-> He].
      simpl readLoop.
      replace (Z.to_nat (Z.min space (len (@nil byte)))) with 0%nat
        by (unfold len; simpl; lia).
      simpl. exact (IH chunks space srcE He).
Qed.

Lemma quiet_leading (chunks : list bytes) :
  forall run, quietFrom run chunks = true ->
              (run <= maxConsecutiveEmptyReads)%nat ->
              (run + leadingEmpties chunks <= maxConsecutiveEmptyReads)%nat.
Proof.
  induction chunks as [|c chunks IH]; intros run Hq Hr;
    cbn [leadingEmpties]; [lia|].
  destruct c as [|x c]; cbn [quietFrom] in Hq; [|lia].
  apply andb_true_iff in Hq as [Hle Hq]. apply Nat.leb_le in Hle.
  specialize (IH (S run) Hq Hle). lia.
Qed.

(** ** The passes of Scan's loop *)

Lemma scanLinesWithNL_bounds (rs : byte) (data : bytes) (atEOF : bool) :
  match scanLinesWithNL rs data atEOF with
  | (advance, Some _) => 1 <= advance <= len data
  | (advance, None) => advance = 0
  end.
Proof.
  destruct (Z_lt_le_dec (IndexByte data rs) 0) as [Hneg | Hpos].
  - pose proof (IndexByte_negative _ _ Hneg) as Hn.
    destruct atEOF.
    + destruct data as [|x data]; [reflexivity|].
      rewrite scanLinesWithNL_final by (assumption || discriminate).
      pose proof (len_nonneg data). rewrite len_cons. lia.
    + now rewrite scanLinesWithNL_more.
  - destruct (IndexByte_found _ _ Hpos) as (r & d & -> & Hn & _).
    rewrite scanLinesWithNL_sep by assumption.
    pose proof (len_nonneg r). pose proof (len_nonneg d).
    rewrite len_app, len_cons. lia.
Qed.

Lemma setErr_fields (s : Scanner) (e : error) :
  sbuf (setErr s e) = sbuf s /\ srcChunks (setErr s e) = srcChunks s /\
  srcErr (setErr s e) = srcErr s /\ sstart (setErr s e) = sstart s /\
  scap (setErr s e) = scap s /\
  (serr s = None -> serr (setErr s e) = Some e) /\
  serr (setErr s e) <> None.
Proof.
  unfold setErr. destruct (serr s) as [[| |m]|] eqn:E; simpl;
    rewrite ?E; repeat split; congruence.
Qed.

Lemma trySplit_inr (rs : byte) (s s1 : Scanner) :
  trySplit rs s = inr s1 ->
  sameSource s s1 /\ (length (sbuf s1) <= length (sbuf s))%nat.
Proof.
  unfold trySplit, sameSource.
  destruct ((0 <? len (sbuf s)) || match serr s with Some _ => true | None => false end).
  - destruct (scanLinesWithNL rs (sbuf s) _) as [adv [t|]];
      destruct (adv <? 0); try discriminate;
      destruct (len (sbuf s) <? adv); try discriminate.
    intros H. injection H as <-. simpl. rewrite length_skipn.
    repeat split; lia.
  - intros H. injection H as <-. repeat split; lia.
Qed.

Lemma trySplit_inl (rs : byte) (s s1 : Scanner) (ok : bool) :
  trySplit rs s = inl (ok, s1) ->
  srcChunks s1 = srcChunks s /\ srcErr s1 = srcErr s /\
  (ok = true -> (length (sbuf s1) < length (sbuf s))%nat).
Proof.
  unfold trySplit.
  destruct ((0 <? len (sbuf s)) || match serr s with Some _ => true | None => false end);
    [|discriminate].
  pose proof (scanLinesWithNL_bounds rs (sbuf s)
                match serr s with Some _ => true | None => false end) as Hb.
  destruct (scanLinesWithNL rs (sbuf s) _) as [adv [t|]].
  - destruct (adv <? 0) eqn:E1.
    + intros H. injection H as <- <-.
      destruct (setErr_fields s ErrNegativeAdvance) as (_ & -> & -> & _).
      repeat split. discriminate.
    + destruct (len (sbuf s) <? adv) eqn:E2.
      * intros H. injection H as <- <-.
        destruct (setErr_fields s ErrAdvanceTooFar) as (_ & -> & -> & _).
        repeat split. discriminate.
      * intros H. injection H as <- <-. simpl. rewrite length_skipn.
        repeat split. intros _. unfold len in Hb. lia.
  - destruct (adv <? 0) eqn:E1.
    + intros H. injection H as <- <-.
      destruct (setErr_fields s ErrNegativeAdvance) as (_ & -> & -> & _).
      repeat split. discriminate.
    + destruct (len (sbuf s) <? adv) eqn:E2; [|discriminate].
      intros H. injection H as <- <-.
      destruct (setErr_fields s ErrAdvanceTooFar) as (_ & -> & -> & _).
      repeat split. discriminate.
Qed.

Lemma makeRoom_inr (s s2 : Scanner) :
  makeRoom s = inr s2 ->
  sbuf s2 = sbuf s /\ serr s2 = serr s /\ srcChunks s2 = srcChunks s /\
  srcErr s2 = srcErr s.
Proof.
  unfold makeRoom.
  destruct ((0 <? sstart s) && _); simpl;
    match goal with |- context [if ?c =? ?d then _ else _] => destruct (c =? d) end;
    try (match goal with |- context [if ?c || ?d then _ else _] => destruct (c || d) end);
    try discriminate; intros H; injection H as <-; repeat split.
Qed.

Lemma makeRoom_inl (s s2 : Scanner) (ok : bool) :
  makeRoom s = inl (ok, s2) -> ok = false.
Proof.
  unfold makeRoom.
  destruct ((0 <? sstart s) && _); simpl;
    match goal with |- context [if ?c =? ?d then _ else _] => destruct (c =? d) end;
    try (match goal with |- context [if ?c || ?d then _ else _] => destruct (c || d) end);
    try discriminate; intros H; now injection H as <- _.
Qed.

Lemma fill_fields (s : Scanner) :
  sbuf (fill s) ++ concat (srcChunks (fill s)) = sbuf s ++ concat (srcChunks s) /\
  srcErr (fill s) = srcErr s /\
  (serr s = None ->
   match serr (fill s) with
   | Some _ => True
   | None => (length (concat (srcChunks (fill s))) < length (concat (srcChunks s)))%nat
   end).
Proof.
  unfold fill.
  destruct (readLoop _ _ (srcChunks s) (srcErr s)) as [[data chunks] err] eqn:Hr.
  destruct (readLoop_spec _ _ _ _ _ _ _ Hr) as (Hc & _ & Hne).
  destruct err as [e|].
  - match goal with |- context [setErr ?x e] =>
      destruct (setErr_fields x e) as (-> & -> & -> & _ & _ & H1 & H2);
      destruct (serr (setErr x e)); [|congruence] end.
    simpl. rewrite <- app_assoc, Hc. repeat split.
  - simpl. rewrite <- app_assoc, Hc. split; [reflexivity|]. split; [reflexivity|].
    intros ->. rewrite <- Hc, length_app.
    destruct data; [now specialize (Hne eq_refl) | simpl; lia].
Qed.

(** The loop is over within the passes [Scan] gives it. *)
Lemma scanLoop_returns (rs : byte) (fuel : nat) :
  forall s,
    (match serr s with
     | Some _ => 1
     | None => length (concat (srcChunks s)) + 2
     end <= fuel)%nat ->
    exists r, scanLoop fuel rs s = Some r.
Proof.
  induction fuel as [|fuel IH]; intros s Hf.
  - destruct (serr s); lia.
  - simpl. destruct (trySplit rs s) as [r | s1] eqn:Ht; [now exists r|].
    destruct (trySplit_inr _ _ _ Ht) as ((He & Hc & _) & _).
    destruct (serr s1) as [e|] eqn:E1; [eexists; reflexivity|].
    destruct (makeRoom s1) as [r | s2] eqn:Hm; [now exists r|].
    destruct (makeRoom_inr _ _ Hm) as (_ & He2 & Hc2 & _).
    apply IH.
    destruct (fill_fields s2) as (_ & _ & Hfill).
    specialize (Hfill (eq_trans He2 E1)).
    rewrite <- He in Hf. rewrite Hc2, Hc in Hfill.
    destruct (serr (fill s2)); lia.
Qed.

Lemma scanLoop_progress (rs : byte) (fuel : nat) :
  forall s s',
    scanLoop fuel rs s = Some (true, s') -> (pending s' < pending s)%nat.
Proof.
  induction fuel as [|fuel IH]; intros s s' H; [discriminate|].
  simpl in H. destruct (trySplit rs s) as [[ok s1] | s1] eqn:Ht.
  - injection H as -> ->.
    destruct (trySplit_inl _ _ _ _ Ht) as (Hc & _ & Hl).
    unfold pending. rewrite Hc. specialize (Hl eq_refl). lia.
  - destruct (trySplit_inr _ _ _ Ht) as ((_ & Hc & _) & Hl).
    destruct (serr s1) as [e|]; [discriminate|].
    destruct (makeRoom s1) as [[ok s2] | s2] eqn:Hm.
    + injection H as -> ->. now apply makeRoom_inl in Hm.
    + destruct (makeRoom_inr _ _ Hm) as (Hb & _ & Hc2 & _).
      specialize (IH _ _ H).
      destruct (fill_fields s2) as (Hfill & _).
      apply (f_equal (@length byte)) in Hfill. rewrite !length_app in Hfill.
      unfold pending in *. rewrite Hb, Hc2, Hc in Hfill. lia.
Qed.

Lemma Scan_scanLoop (rs : byte) (s : Scanner) :
  scanLoop (S (S (length (concat (srcChunks s))))) rs s = Some (Scan rs s).
Proof.
  unfold Scan.
  destruct (scanLoop_returns rs (S (S (length (concat (srcChunks s))))) s)
    as (r & Hr); [destruct (serr s); lia|].
  now rewrite Hr.
Qed.

Lemma Scan_progress (rs : byte) (s s' : Scanner) :
  Scan rs s = (true, s') -> (pending s' < pending s)%nat.
Proof.
  intros H. pose proof (Scan_scanLoop rs s) as Hl. rewrite H in Hl.
  exact (scanLoop_progress _ _ _ _ Hl).
Qed.

(** ** The passes of the loop on a scanner in order *)

Lemma trySplit_nosep (rs : byte) (s : Scanner) :
  serr s = None -> ~ In rs (sbuf s) ->
  exists s1,
    trySplit rs s = inr s1 /\ sbuf s1 = sbuf s /\ sstart s1 = sstart s /\
    scap s1 = scap s /\ serr s1 = None /\ srcChunks s1 = srcChunks s /\
    srcErr s1 = srcErr s.
Proof.
  intros He Hn. unfold trySplit. rewrite He.
  destruct (sbuf s) as [|x buf] eqn:Hb.
  - simpl. exists s. rewrite Hb. repeat split; assumption.
  - rewrite len_cons.
    replace (0 <? len buf + 1) with true
      by (symmetry; apply Z.ltb_lt; pose proof (len_nonneg buf); lia).
    simpl orb. rewrite scanLinesWithNL_more by assumption. simpl.
    replace (len buf + 1 <? 0) with false
      by (symmetry; apply Z.ltb_ge; pose proof (len_nonneg buf); lia).
    eexists. split; [reflexivity|]. simpl. repeat split; lia.
Qed.

Lemma constants_in_order :
  0 < MaxScanTokenSize /\ MaxScanTokenSize <= Z.quot maxInt 2 /\
  0 < startBufSize <= MaxScanTokenSize.
Proof. vm_compute. repeat split; discriminate. Qed.

Lemma makeRoom_ok (s : Scanner) :
  bufferInOrder s -> len (sbuf s) < MaxScanTokenSize ->
  exists s2,
    makeRoom s = inr s2 /\ sbuf s2 = sbuf s /\ serr s2 = serr s /\
    srcChunks s2 = srcChunks s /\ srcErr s2 = srcErr s /\
    bufferInOrder s2 /\ 0 < scap s2 - (sstart s2 + len (sbuf s2)).
Proof.
  intros (H0 & H1 & H2) Hl.
  destruct constants_in_order as (Hc1 & Hc2 & Hc3 & Hc4).
  pose proof (len_nonneg (sbuf s)) as Hn.
  unfold makeRoom, bufferInOrder.
  destruct ((0 <? sstart s) &&
            ((sstart s + len (sbuf s) =? scap s) || (scap s ÷ 2 <? sstart s)))
    eqn:Hshift; cbn [sbuf sstart scap serr srcChunks srcErr].
  - destruct (0 + len (sbuf s) =? scap s) eqn:Hfull.
    + apply Z.eqb_eq in Hfull.
      replace ((MaxScanTokenSize <=? scap s) || (maxInt ÷ 2 <? scap s)) with false
        by (symmetry; apply orb_false_iff; split;
            [apply Z.leb_gt | apply Z.ltb_ge]; lia).
      eexists. split; [reflexivity|]. cbn [sbuf sstart scap serr srcChunks srcErr stok].
      do 4 (split; [reflexivity|]).
      destruct (scap s * 2 =? 0) eqn:E0;
        [apply Z.eqb_eq in E0 | apply Z.eqb_neq in E0].
      * destruct (MaxScanTokenSize <? startBufSize) eqn:E1;
          [apply Z.ltb_lt in E1 | apply Z.ltb_ge in E1]; repeat split; lia.
      * destruct (MaxScanTokenSize <? scap s * 2) eqn:E1;
          [apply Z.ltb_lt in E1 | apply Z.ltb_ge in E1]; repeat split; lia.
    + apply Z.eqb_neq in Hfull.
      eexists. split; [reflexivity|]. cbn [sbuf sstart scap serr srcChunks srcErr stok].
      do 4 (split; [reflexivity|]). repeat split; lia.
  - assert (Hcase : sstart s = 0 \/ sstart s + len (sbuf s) <> scap s).
    { apply andb_false_iff in Hshift as [Hs | Hs].
      - apply Z.ltb_ge in Hs. left. lia.
      - apply orb_false_iff in Hs as [Hs _]. apply Z.eqb_neq in Hs. now right. }
    destruct (sstart s + len (sbuf s) =? scap s) eqn:Hfull.
    + apply Z.eqb_eq in Hfull.
      assert (Hs0 : sstart s = 0) by (destruct Hcase; [assumption | contradiction]).
      replace ((MaxScanTokenSize <=? scap s) || (maxInt ÷ 2 <? scap s)) with false
        by (symmetry; apply orb_false_iff; split;
            [apply Z.leb_gt | apply Z.ltb_ge]; lia).
      eexists. split; [reflexivity|]. cbn [sbuf sstart scap serr srcChunks srcErr stok].
      do 4 (split; [reflexivity|]).
      destruct (scap s * 2 =? 0) eqn:E0;
        [apply Z.eqb_eq in E0 | apply Z.eqb_neq in E0].
      * destruct (MaxScanTokenSize <? startBufSize) eqn:E1;
          [apply Z.ltb_lt in E1 | apply Z.ltb_ge in E1]; repeat split; lia.
      * destruct (MaxScanTokenSize <? scap s * 2) eqn:E1;
          [apply Z.ltb_lt in E1 | apply Z.ltb_ge in E1]; repeat split; lia.
    + apply Z.eqb_neq in Hfull.
      exists s. repeat split; try assumption; lia.
Qed.

Lemma makeRoom_empty (s : Scanner) :
  sbuf s = [] ->
  exists s2,
    makeRoom s = inr s2 /\ sbuf s2 = [] /\ serr s2 = serr s /\
    srcChunks s2 = srcChunks s /\ srcErr s2 = srcErr s.
Proof.
  intros Hb.
  destruct (makeRoom s) as [[ok s2] | s2] eqn:Hm.
  - exfalso. revert Hm. unfold makeRoom. rewrite Hb.
    destruct constants_in_order as (Hc1 & Hc2 & _).
    change (len (@nil byte)) with 0.
    destruct ((0 <? sstart s) && ((sstart s + 0 =? scap s) || (scap s ÷ 2 <? sstart s)))
      eqn:Hshift; cbn [sbuf sstart scap serr srcChunks srcErr];
      rewrite ?Hb; change (len (@nil byte)) with 0.
    + destruct (0 + 0 =? scap s) eqn:Hfull; [|discriminate].
      apply Z.eqb_eq in Hfull.
      replace ((MaxScanTokenSize <=? scap s) || (maxInt ÷ 2 <? scap s)) with false
        by (symmetry; apply orb_false_iff; split;
            [apply Z.leb_gt | apply Z.ltb_ge]; lia).
      discriminate.
    + destruct (sstart s + 0 =? scap s) eqn:Hfull; [|discriminate].
      apply Z.eqb_eq in Hfull.
      assert (Hs0 : sstart s <= 0).
      { apply andb_false_iff in Hshift as [H | H].
        - apply Z.ltb_ge in H. lia.
        - apply orb_false_iff in H as [H _]. discriminate H. }
      replace ((MaxScanTokenSize <=? scap s) || (maxInt ÷ 2 <? scap s)) with false
        by (symmetry; apply orb_false_iff; split;
            [apply Z.leb_gt | apply Z.ltb_ge]; lia).
      discriminate.
  - exists s2. split; [reflexivity|].
    destruct (makeRoom_inr _ _ Hm) as (H1 & H2 & H3 & H4).
    rewrite H1. repeat split; assumption.
Qed.

(** One pass on a scanner whose source has ended. *)
Lemma scanLoop_end_sep (rs : byte) (fuel : nat) (s : Scanner) (e : error) (r d : bytes) :
  serr s = Some e -> sbuf s = r ++ rs :: d -> ~ In rs r ->
  exists s',
    scanLoop (S fuel) rs s = Some (true, s') /\ stok s' = r ++ [rs] /\
    sbuf s' = d /\ serr s' = Some e /\ srcErr s' = srcErr s.
Proof.
  intros He Hb Hn. simpl. unfold trySplit. rewrite He, Hb, orb_true_r.
  rewrite scanLinesWithNL_sep by assumption.
  pose proof (len_nonneg r). pose proof (len_nonneg d).
  replace (len r + 1 <? 0) with false by (symmetry; apply Z.ltb_ge; lia).
  replace (len (r ++ rs :: d) <? len r + 1) with false
    by (symmetry; apply Z.ltb_ge; rewrite len_app, len_cons; lia).
  eexists. split; [reflexivity|]. simpl.
  split; [reflexivity|]. split; [apply skipn_sep|]. split; reflexivity.
Qed.

Lemma scanLoop_end_final (rs : byte) (fuel : nat) (s : Scanner) (e : error) :
  serr s = Some e -> ~ In rs (sbuf s) -> sbuf s <> [] ->
  exists s',
    scanLoop (S fuel) rs s = Some (true, s') /\ stok s' = sbuf s /\
    sbuf s' = [] /\ serr s' = Some e /\ srcErr s' = srcErr s.
Proof.
  intros He Hn Hne. simpl. unfold trySplit. rewrite He, orb_true_r.
  rewrite scanLinesWithNL_final by assumption.
  pose proof (len_nonneg (sbuf s)).
  replace (len (sbuf s) <? 0) with false by (symmetry; apply Z.ltb_ge; lia).
  rewrite Z.ltb_irrefl.
  eexists. split; [reflexivity|]. simpl.
  split; [reflexivity|]. split; [|split; reflexivity].
  rewrite <- (app_nil_r (sbuf s)) at 2. apply skipn_len_app.
Qed.

Lemma scanLoop_end_empty (rs : byte) (fuel : nat) (s : Scanner) (e : error) :
  serr s = Some e -> sbuf s = [] ->
  exists s',
    scanLoop (S fuel) rs s = Some (false, s') /\ sbuf s' = [] /\
    serr s' = Some e /\ srcErr s' = srcErr s.
Proof.
  intros He Hb. simpl. unfold trySplit. rewrite He, Hb, orb_true_r.
  simpl. rewrite ?He. eexists. split; [reflexivity|]. repeat split.
Qed.

(** The passes on a scanner whose source still delivers. *)
Lemma scanLoop_sep (rs : byte) (fuel : nat) :
  forall s r d,
    serr s = None -> bufferInOrder s -> quiet (srcChunks s) = true ->
    sbuf s ++ concat (srcChunks s) = r ++ rs :: d -> ~ In rs r ->
    len r < MaxScanTokenSize ->
    (length (concat (srcChunks s)) + 2 <= fuel)%nat ->
    exists s',
      scanLoop fuel rs s = Some (true, s') /\ stok s' = r ++ [rs] /\
      serr s' = None /\ sbuf s' ++ concat (srcChunks s') = d /\
      bufferInOrder s' /\ quiet (srcChunks s') = true /\ srcErr s' = srcErr s.
Proof.
  induction fuel as [|fuel IH]; intros s r d He Hwf Hq Hdata Hn Hlen Hfuel; [lia|].
  destruct (first_sep_split rs r d (sbuf s) (concat (srcChunks s)) Hn Hdata)
    as [(d' & Hb & ->) | (Hnb & r' & -> & Hmore)].
  - simpl. unfold trySplit. rewrite He, Hb.
    pose proof (len_nonneg r). pose proof (len_nonneg d').
    replace (0 <? len (r ++ rs :: d')) with true
      by (symmetry; apply Z.ltb_lt; rewrite len_app, len_cons; lia).
    simpl orb. rewrite scanLinesWithNL_sep by assumption.
    replace (len r + 1 <? 0) with false by (symmetry; apply Z.ltb_ge; lia).
    replace (len (r ++ rs :: d') <? len r + 1) with false
      by (symmetry; apply Z.ltb_ge; rewrite len_app, len_cons; lia).
    eexists. split; [reflexivity|]. cbn [sbuf sstart scap serr srcChunks srcErr stok].
    split; [reflexivity|]. split; [reflexivity|].
    rewrite skipn_sep. split; [reflexivity|].
    split; [|split; [assumption | reflexivity]].
    destruct Hwf as (Hw0 & Hw1 & Hw2). rewrite Hb, len_app, len_cons in Hw1.
    unfold bufferInOrder; cbn [sbuf sstart scap]. lia.
  - destruct (trySplit_nosep rs s He Hnb)
      as (s1 & Ht & Hb1 & Hs1 & Hc1 & He1 & Hch1 & Hse1).
    assert (Hwf1 : bufferInOrder s1).
    { unfold bufferInOrder. now rewrite Hb1, Hs1, Hc1. }
    assert (Hl1 : len (sbuf s1) < MaxScanTokenSize).
    { rewrite Hb1. rewrite len_app in Hlen. pose proof (len_nonneg r'). lia. }
    destruct (makeRoom_ok s1 Hwf1 Hl1)
      as (s2 & Hm & Hb2 & He2 & Hch2 & Hse2 & Hwf2 & Hsp).
    simpl. rewrite Ht, He1, Hm.
    assert (Hq2 : quietFrom 0 (srcChunks s2) = true) by (now rewrite Hch2, Hch1).
    assert (Hne : concat (srcChunks s2) <> []).
    { rewrite Hch2, Hch1, Hmore. now destruct r'. }
    destruct (readLoop_quiet (srcChunks s2) 0 (S maxConsecutiveEmptyReads)
                (scap s2 - (sstart s2 + len (sbuf s2))) (srcErr s2) Hsp
                (Nat.le_0_l _) (Nat.add_0_r _) Hq2) as (_ & Hread).
    destruct (Hread Hne) as (data & chunks' & Hr & Hq').
    destruct (readLoop_spec _ _ _ _ _ _ _ Hr) as (Hcons & Hld & Hdne).
    specialize (Hdne eq_refl).
    assert (Hfill : fill s2 =
                    {| sbuf := sbuf s2 ++ data; sstart := sstart s2;
                       scap := scap s2; serr := serr s2; stok := stok s2;
                       srcChunks := chunks'; srcErr := srcErr s2 |}).
    { unfold fill. now rewrite Hr. }
    rewrite Hfill.
    destruct (IH {| sbuf := sbuf s2 ++ data; sstart := sstart s2;
                    scap := scap s2; serr := serr s2; stok := stok s2;
                    srcChunks := chunks'; srcErr := srcErr s2 |}
                 (sbuf s ++ r') d) as (s' & Hs' & Htok & Hes & Hrest & Hwf' & Hq'' & Hsrc);
      cbn [sbuf sstart scap serr srcChunks srcErr]; try assumption.
    + now rewrite He2.
    + destruct Hwf2 as (Hw0 & Hw1 & Hw2). unfold bufferInOrder. cbn [sbuf sstart scap serr srcChunks srcErr stok].
      rewrite len_app. repeat split; lia.
    + rewrite <- app_assoc, Hcons, Hb2, Hb1, Hch2, Hch1, Hmore.
      now rewrite <- app_assoc.
    + apply (f_equal (@length byte)) in Hcons. rewrite length_app in Hcons.
      rewrite Hch2, Hch1 in Hcons.
      destruct data; [congruence | simpl in Hcons; lia].
    + exists s'. split; [exact Hs'|]. split; [exact Htok|]. split; [exact Hes|].
      split; [exact Hrest|]. split; [exact Hwf'|]. split; [exact Hq''|].
      rewrite Hsrc. cbn. congruence.
Qed.

Lemma scanLoop_final (rs : byte) (fuel : nat) :
  forall s,
    serr s = None -> bufferInOrder s -> quiet (srcChunks s) = true ->
    ~ In rs (sbuf s ++ concat (srcChunks s)) ->
    sbuf s ++ concat (srcChunks s) <> [] ->
    len (sbuf s ++ concat (srcChunks s)) < MaxScanTokenSize ->
    (length (concat (srcChunks s)) + 2 <= fuel)%nat ->
    exists s',
      scanLoop fuel rs s = Some (true, s') /\
      stok s' = sbuf s ++ concat (srcChunks s) /\
      serr s' = Some (srcErr s) /\ sbuf s' = [] /\ srcErr s' = srcErr s.
Proof.
  induction fuel as [|fuel IH]; intros s He Hwf Hq Hn Hne Hlen Hfuel; [lia|].
  assert (Hnb : ~ In rs (sbuf s)) by (intros Hi; apply Hn, in_or_app; now left).
  destruct (trySplit_nosep rs s He Hnb)
    as (s1 & Ht & Hb1 & Hs1 & Hc1 & He1 & Hch1 & Hse1).
  assert (Hwf1 : bufferInOrder s1).
  { unfold bufferInOrder. now rewrite Hb1, Hs1, Hc1. }
  assert (Hl1 : len (sbuf s1) < MaxScanTokenSize).
  { rewrite Hb1. rewrite len_app in Hlen.
    pose proof (len_nonneg (concat (srcChunks s))). lia. }
  destruct (makeRoom_ok s1 Hwf1 Hl1)
    as (s2 & Hm & Hb2 & He2 & Hch2 & Hse2 & Hwf2 & Hsp).
  simpl. rewrite Ht, He1, Hm.
  assert (Hq2 : quietFrom 0 (srcChunks s2) = true) by (now rewrite Hch2, Hch1).
  destruct (readLoop_quiet (srcChunks s2) 0 (S maxConsecutiveEmptyReads)
              (scap s2 - (sstart s2 + len (sbuf s2))) (srcErr s2) Hsp
              (Nat.le_0_l _) (Nat.add_0_r _) Hq2) as (Hend & Hread).
  destruct (concat (srcChunks s2)) as [|y tl] eqn:Hcc.
  - (* the source has nothing left *)
    specialize (Hend eq_refl).
    assert (Hfill : fill s2 =
                    setErr {| sbuf := sbuf s2 ++ []; sstart := sstart s2;
                              scap := scap s2; serr := serr s2; stok := stok s2;
                              srcChunks := []; srcErr := srcErr s2 |} (srcErr s2)).
    { unfold fill. now rewrite Hend. }
    rewrite Hfill.
    match goal with |- context [setErr ?x ?e] =>
      destruct (setErr_fields x e) as (Hf1 & Hf2 & Hf3 & _ & _ & Hf4 & _);
      set (s3 := setErr x e) in * end.
    cbn in Hf1, Hf2, Hf3, Hf4. rewrite app_nil_r in Hf1.
    specialize (Hf4 (eq_trans He2 He1)).
    rewrite Hch2, Hch1 in Hcc. rewrite Hcc, app_nil_r in *.
    destruct fuel as [|fuel]; [simpl in Hfuel; lia|].
    destruct (scanLoop_end_final rs fuel s3 (srcErr s2) Hf4)
      as (s' & Hs' & Htok & Hb' & He' & Hsrc').
    { rewrite Hf1, Hb2, Hb1. exact Hn. }
    { rewrite Hf1, Hb2, Hb1. exact Hne. }
    exists s'. split; [exact Hs'|].
    rewrite Htok, Hf1, Hb2, Hb1, He', Hsrc', Hf3, Hse2, Hse1.
    repeat split. exact Hb'.
  - assert (Hne2 : y :: tl <> []) by discriminate.
    destruct (Hread Hne2) as (data & chunks' & Hr & Hq').
    destruct (readLoop_spec _ _ _ _ _ _ _ Hr) as (Hcons & Hld & Hdne).
    specialize (Hdne eq_refl).
    assert (Hfill : fill s2 =
                    {| sbuf := sbuf s2 ++ data; sstart := sstart s2;
                       scap := scap s2; serr := serr s2; stok := stok s2;
                       srcChunks := chunks'; srcErr := srcErr s2 |}).
    { unfold fill. now rewrite Hr. }
    rewrite Hfill.
    assert (Hall : (sbuf s2 ++ data) ++ concat chunks' =
                   sbuf s ++ concat (srcChunks s)).
    { rewrite <- app_assoc, Hcons, Hcc, Hb2, Hb1.
      rewrite Hch2, Hch1 in Hcc. now rewrite Hcc. }
    destruct (IH {| sbuf := sbuf s2 ++ data; sstart := sstart s2;
                    scap := scap s2; serr := serr s2; stok := stok s2;
                    srcChunks := chunks'; srcErr := srcErr s2 |})
      as (s' & Hs' & Htok & Hes & Hb' & Hsrc);
      cbn [sbuf sstart scap serr srcChunks srcErr]; try assumption.
    + now rewrite He2.
    + destruct Hwf2 as (Hw0 & Hw1 & Hw2). unfold bufferInOrder. cbn [sbuf sstart scap serr srcChunks srcErr stok].
      rewrite len_app. repeat split; lia.
    + now rewrite Hall.
    + now rewrite Hall.
    + now rewrite Hall.
    + pose proof (f_equal (@length byte) Hall) as HL.
      rewrite !length_app, Hb2, Hb1 in HL.
      destruct data; [congruence | simpl in HL |- *; lia].
    + cbn in Htok, Hes, Hsrc. rewrite Hall in Htok.
      exists s'. split; [exact Hs'|]. split; [exact Htok|].
      rewrite Hes, Hb', Hsrc, Hse2, Hse1. repeat split.
Qed.

(** ** One call of Scan *)

Lemma Scan_empty (rs : byte) (s : Scanner) :
  rest s = [] ->
  exists s', Scan rs s = (false, s') /\ rest s' = [] /\
             serr s' = Some (lastErr s).
Proof.
  intros Hr. pose proof (Scan_scanLoop rs s) as HS.
  unfold rest, lastErr in *. destruct (serr s) as [e|] eqn:He.
  - destruct (scanLoop_end_empty rs (S (length (concat (srcChunks s)))) s e He Hr)
      as (s' & Hs' & Hb & He' & _).
    rewrite Hs' in HS. injection HS as HS. exists s'.
    split; [now symmetry|]. rewrite He'. split; [assumption | reflexivity].
  - apply app_eq_nil in Hr as [Hb Hc]. rewrite Hc in HS.
    cbn [length scanLoop] in HS.
    destruct (trySplit_nosep rs s He) as (s1 & Ht & Hb1 & _ & _ & He1 & Hch1 & Hse1);
      [rewrite Hb; intros []|].
    rewrite Ht, He1 in HS.
    destruct (makeRoom_empty s1 (eq_trans Hb1 Hb)) as (s2 & Hm & Hb2 & He2 & Hch2 & Hse2).
    rewrite Hm in HS.
    destruct (readLoop_all_empty (S maxConsecutiveEmptyReads) (srcChunks s2)
                (scap s2 - (sstart s2 + len (sbuf s2))) (srcErr s2))
      as (chunks' & Hr & Hc'); [now rewrite Hch2, Hch1|].
    match type of Hr with _ = (_, _, Some ?x) => remember x as e0 eqn:He0 end.
    unfold fill in HS. rewrite Hr in HS.
    unfold setErr in HS at 1.
    cbn [sbuf sstart scap serr srcChunks srcErr stok] in HS.
    rewrite He2, He1 in HS. unfold trySplit in HS.
    cbn [sbuf sstart scap serr srcChunks srcErr stok] in HS.
    rewrite Hb2 in HS. cbn in HS.
    injection HS as HS. eexists. split; [symmetry; exact HS|].
    cbn [sbuf serr]. split; [reflexivity|]. f_equal. rewrite He0.
    rewrite Hch2, Hch1, (all_empty_leading _ Hc), Hse2, Hse1.
    change (S maxConsecutiveEmptyReads <=? length (srcChunks s))%nat
      with (maxConsecutiveEmptyReads <? length (srcChunks s))%nat.
    reflexivity.
Qed.

Lemma quiet_lastErr (s : Scanner) :
  serr s = None -> quiet (srcChunks s) = true -> lastErr s = srcErr s.
Proof.
  intros He Hq. unfold lastErr. rewrite He.
  pose proof (quiet_leading (srcChunks s) 0 Hq (Nat.le_0_l _)) as Hl.
  replace (maxConsecutiveEmptyReads <? leadingEmpties (srcChunks s))%nat
    with false by (symmetry; apply Nat.ltb_ge; exact Hl).
  reflexivity.
Qed.

Lemma Scan_sep (rs : byte) (s : Scanner) (r d : bytes) :
  ~ In rs r -> rest s = r ++ rs :: d ->
  (serr s = None ->
   bufferInOrder s /\ quiet (srcChunks s) = true /\ len r < MaxScanTokenSize) ->
  exists s',
    Scan rs s = (true, s') /\ stok s' = r ++ [rs] /\ rest s' = d /\
    serr s' = serr s /\ srcErr s' = srcErr s /\
    (serr s = None -> bufferInOrder s' /\ quiet (srcChunks s') = true).
Proof.
  intros Hn Hr Hok. pose proof (Scan_scanLoop rs s) as HS.
  unfold rest in *. destruct (serr s) as [e|] eqn:He.
  - destruct (scanLoop_end_sep rs (S (length (concat (srcChunks s)))) s e r d
                He Hr Hn) as (s' & Hs' & Htok & Hb & He' & Hsrc).
    rewrite Hs' in HS. injection HS as HS. exists s'.
    split; [now symmetry|]. rewrite He'.
    split; [assumption|]. split; [assumption|]. split; [reflexivity|].
    split; [assumption | discriminate].
  - destruct (Hok eq_refl) as (Hwf & Hq & Hlen).
    destruct (scanLoop_sep rs (S (S (length (concat (srcChunks s))))) s r d
                He Hwf Hq Hr Hn Hlen) as (s' & Hs' & Htok & He' & Hrest & Hwf' & Hq' & Hsrc);
      [lia|].
    rewrite Hs' in HS. injection HS as HS. exists s'.
    split; [now symmetry|]. rewrite He'.
    split; [assumption|]. split; [assumption|]. split; [reflexivity|].
    split; [assumption|]. intros _. split; assumption.
Qed.

Lemma Scan_final (rs : byte) (s : Scanner) :
  ~ In rs (rest s) -> rest s <> [] ->
  (serr s = None ->
   bufferInOrder s /\ quiet (srcChunks s) = true /\
   len (rest s) < MaxScanTokenSize) ->
  exists s',
    Scan rs s = (true, s') /\ stok s' = rest s /\ rest s' = [] /\
    serr s' = Some (lastErr s) /\ srcErr s' = srcErr s.
Proof.
  intros Hn Hne Hok. pose proof (Scan_scanLoop rs s) as HS.
  pose proof (quiet_lastErr s) as Hlast.
  unfold rest, lastErr in *. destruct (serr s) as [e|] eqn:He.
  - destruct (scanLoop_end_final rs (S (length (concat (srcChunks s)))) s e
                He Hn Hne) as (s' & Hs' & Htok & Hb & He' & Hsrc).
    rewrite Hs' in HS. injection HS as HS. exists s'.
    split; [now symmetry|]. rewrite He'. repeat split; assumption.
  - destruct (Hok eq_refl) as (Hwf & Hq & Hlen).
    destruct (scanLoop_final rs (S (S (length (concat (srcChunks s))))) s
                He Hwf Hq Hn Hne Hlen) as (s' & Hs' & Htok & He' & Hb & Hsrc);
      [lia|].
    rewrite Hs' in HS. injection HS as HS. exists s'.
    split; [now symmetry|]. rewrite He', (Hlast eq_refl Hq).
    repeat split; assumption.
Qed.

(** ** The sequence of records *)

Lemma length_joinRecords (rs : byte) (frs : list bytes) (final : bytes) :
  (length (expectedRecords rs frs final) <= length (joinRecords rs frs final))%nat.
Proof.
  induction frs as [|r frs IH].
  - unfold expectedRecords, joinRecords. simpl. destruct final; simpl; lia.
  - rewrite joinRecords_cons. unfold expectedRecords in *. simpl.
    rewrite (length_app r). simpl. lia.
Qed.

Lemma rest_le_pending (s : Scanner) : (length (rest s) <= pending s)%nat.
Proof.
  unfold rest, pending. destruct (serr s); [lia|]. rewrite length_app. lia.
Qed.

Lemma splitRecords_nil (rs : byte) (data : bytes) :
  splitRecords rs data = [] -> data = [].
Proof.
  intros H. rewrite <- (concat_splitRecords rs data), H. reflexivity.
Qed.

Lemma recordsFit_sep (rs : byte) (r d : bytes) :
  ~ In rs r -> recordsFit rs (r ++ rs :: d) ->
  len r < MaxScanTokenSize /\ recordsFit rs d.
Proof.
  intros Hn Hf. unfold recordsFit in *. rewrite splitRecords_sep in Hf by assumption.
  apply Forall_cons_iff in Hf as [Hr Hd]. split; [|assumption].
  rewrite len_app in Hr. change (len [rs]) with 1 in Hr. lia.
Qed.

Lemma recordsFit_final (rs : byte) (data : bytes) :
  ~ In rs data -> recordsFit rs data -> len data < MaxScanTokenSize.
Proof.
  intros Hn Hf. unfold recordsFit in Hf. rewrite splitRecords_final in Hf by assumption.
  destruct data as [|x data]; [reflexivity|].
  now apply Forall_cons_iff in Hf as [Hr _].
Qed.

Lemma scannable_rest (rs : byte) (s : Scanner) :
  scannable rs s -> serr s = None ->
  bufferInOrder s /\ quiet (srcChunks s) = true /\ recordsFit rs (rest s).
Proof.
  unfold scannable, rest. intros Hs He. rewrite He in *. exact Hs.
Qed.

(** One call of [Scan], by the records left. *)
Lemma Scan_next (rs : byte) (s : Scanner) :
  scannable rs s ->
  match splitRecords rs (rest s) with
  | [] =>
      exists s', Scan rs s = (false, s') /\ rest s' = [] /\
                 serr s' = Some (lastErr s)
  | t :: ts =>
      exists s', Scan rs s = (true, s') /\ stok s' = t /\
                 splitRecords rs (rest s') = ts /\
                 scannable rs s' /\ lastErr s' = lastErr s
  end.
Proof.
  intros Hsc.
  destruct (joinRecords_exists rs (rest s)) as (frs & final & Hf & Hn & Hr).
  rewrite Hr, splitRecords_joinRecords by assumption.
  destruct frs as [|r frs].
  - unfold joinRecords in Hr. simpl in Hr. unfold expectedRecords. simpl.
    destruct final as [|x final].
    + destruct (Scan_empty rs s Hr) as (s' & Hs & Hr' & He).
      exists s'. split; [assumption|]. split; assumption.
    + destruct (Scan_final rs s) as (s' & Hs & Ht & Hr' & He' & Hsrc);
        [now rewrite Hr | rewrite Hr; discriminate | |].
      { intros He. destruct (scannable_rest rs s Hsc He) as (Hwf & Hq & Hfit).
        split; [assumption|]. split; [assumption|].
        apply (recordsFit_final rs); [now rewrite Hr | assumption]. }
      exists s'. split; [assumption|]. split; [now rewrite Ht, Hr|].
      split; [now rewrite Hr'|].
      split; [unfold scannable; now rewrite He'|].
      unfold lastErr at 1. now rewrite He'.
  - rewrite joinRecords_cons in Hr. apply Forall_cons_iff in Hf as [Hnr Hf].
    destruct (Scan_sep rs s r _ Hnr Hr) as (s' & Hs & Ht & Hr' & He' & Hsrc & Hinv).
    { intros He. destruct (scannable_rest rs s Hsc He) as (Hwf & Hq & Hfit).
      split; [assumption|]. split; [assumption|].
      rewrite Hr in Hfit. now apply recordsFit_sep in Hfit. }
    unfold expectedRecords. simpl.
    exists s'. split; [assumption|]. split; [assumption|].
    split; [rewrite Hr'; now apply splitRecords_joinRecords|].
    destruct (serr s) as [e|] eqn:He.
    + split; [unfold scannable; now rewrite He'|].
      unfold lastErr. now rewrite He', He.
    + destruct (Hinv eq_refl) as (Hwf' & Hq').
      destruct (scannable_rest rs s Hsc He) as (Hwf & Hq & Hfit).
      split.
      * unfold scannable. rewrite He'. split; [assumption|]. split; [assumption|].
        rewrite Hr in Hfit. apply recordsFit_sep in Hfit; [|assumption].
        unfold rest in Hr'. rewrite He' in Hr'. rewrite Hr'. apply Hfit.
      * rewrite (quiet_lastErr s' He' Hq'), (quiet_lastErr s He Hq). exact Hsrc.
Qed.

Lemma scanAll_records (rs : byte) (fuel : nat) :
  forall s,
    scannable rs s ->
    (length (splitRecords rs (rest s)) < fuel)%nat ->
    scanAll fuel rs s = Some (splitRecords rs (rest s)).
Proof.
  induction fuel as [|fuel IH]; intros s Hsc Hfuel; [lia|].
  pose proof (Scan_next rs s Hsc) as Hnext. cbn [scanAll].
  destruct (splitRecords rs (rest s)) as [|t ts].
  - destruct Hnext as (s' & Hs & _). now rewrite Hs.
  - destruct Hnext as (s' & Hs & Ht & Hts & Hsc' & _). rewrite Hs.
    rewrite (IH s' Hsc') by (rewrite Hts; simpl in Hfuel; lia).
    unfold ScannerBytes. now rewrite Ht, Hts.
Qed.

Lemma length_splitRecords (rs : byte) (data : bytes) :
  (length (splitRecords rs data) <= length data)%nat.
Proof.
  destruct (joinRecords_exists rs data) as (frs & final & Hf & Hn & ->).
  rewrite splitRecords_joinRecords by assumption. apply length_joinRecords.
Qed.

Lemma tokenize_records (rs : byte) (s : Scanner) :
  scannable rs s -> tokenize rs s = Some (splitRecords rs (rest s)).
Proof.
  intros Hsc. unfold tokenize. apply scanAll_records; [assumption|].
  pose proof (length_splitRecords rs (rest s)).
  pose proof (rest_le_pending s). lia.
Qed.

Lemma scannable_NewScanner (rs : byte) (chunks : list bytes) (e : error) :
  quiet chunks = true -> recordsFit rs (concat chunks) ->
  scannable rs (NewScanner chunks e).
Proof.
  intros Hq Hf. unfold scannable, NewScanner, bufferInOrder.
  cbn [serr sbuf sstart scap srcChunks app].
  split; [|split; assumption].
  change (len (@nil byte)) with 0. unfold MaxScanTokenSize. lia.
Qed.

(** ** The shape of what Scan delivers, whatever the scanner *)

Lemma first_occurrence (rs : byte) (data : bytes) :
  In rs data -> exists r d, data = r ++ rs :: d /\ ~ In rs r.
Proof.
  induction data as [|x data IH]; intros Hi; [destruct Hi|].
  destruct (Byte.byte_eq_dec x rs) as [->|Hne].
  - exists [], data. split; [reflexivity | intros []].
  - destruct Hi as [E | Hi]; [contradiction|].
    destruct (IH Hi) as (r & d & -> & Hn). exists (x :: r), d.
    split; [reflexivity|]. intros [E | Hi']; [now apply Hne | now apply Hn].
Qed.

Lemma scanLinesWithNL_token (rs : byte) (data : bytes) (atEOF : bool)
  (adv : Z) (t : bytes) :
  scanLinesWithNL rs data atEOF = (adv, Some t) ->
  (exists r d, data = r ++ rs :: d /\ ~ In rs r /\ t = r ++ [rs] /\
               adv = len r + 1) \/
  (atEOF = true /\ ~ In rs data /\ data <> [] /\ t = data /\ adv = len data).
Proof.
  intros H. destruct (in_dec Byte.byte_eq_dec rs data) as [Hi | Hn].
  - left. destruct (first_occurrence rs data Hi) as (r & d & -> & Hn).
    rewrite scanLinesWithNL_sep in H by assumption. injection H as <- <-.
    exists r, d. repeat split; assumption.
  - right. destruct atEOF.
    + destruct data as [|x data]; [discriminate H|].
      rewrite scanLinesWithNL_final in H by (assumption || discriminate).
      injection H as <- <-. repeat split; try assumption. discriminate.
    + rewrite scanLinesWithNL_more in H by assumption. discriminate.
Qed.

Lemma lastByteIs_last (s : bytes) (rs : byte) : lastByteIs (s ++ [rs]) rs = true.
Proof.
  unfold lastByteIs. rewrite rev_app_distr. simpl. apply byte_eqb_refl.
Qed.

Lemma trySplit_token (rs : byte) (s s1 : Scanner) :
  trySplit rs s = inl (true, s1) ->
  stok s1 <> [] /\ ~ In rs (removelast (stok s1)) /\
  (lastByteIs (stok s1) rs = true \/ (serr s1 <> None /\ sbuf s1 = [])).
Proof.
  unfold trySplit.
  destruct ((0 <? len (sbuf s)) || match serr s with Some _ => true | None => false end);
    [|discriminate].
  destruct (scanLinesWithNL rs (sbuf s) match serr s with Some _ => true | None => false end)
    as [adv [t|]] eqn:Hsp.
  2:{ destruct (adv <? 0); [discriminate|].
      destruct (len (sbuf s) <? adv); discriminate. }
  destruct (adv <? 0); [discriminate|].
  destruct (len (sbuf s) <? adv); [discriminate|].
  intros H. injection H as <-. cbn [stok serr sbuf].
  apply scanLinesWithNL_token in Hsp
    as [(r & d & Hb & Hn & -> & ->) | (Heof & Hn & Hne & -> & ->)].
  - split; [now destruct r|]. split; [now rewrite removelast_last|].
    left. apply lastByteIs_last.
  - split; [assumption|]. split.
    + intros Hi. apply Hn.
      destruct (sbuf s) as [|x l]; [contradiction|].
      rewrite (app_removelast_last x (l := x :: l)) by discriminate.
      apply in_or_app. now left.
    + right. split; [destruct (serr s); [discriminate | discriminate Heof]|].
      rewrite <- (app_nil_r (sbuf s)) at 2. apply skipn_len_app.
Qed.

Lemma scanLoop_token (rs : byte) (fuel : nat) :
  forall s s',
    scanLoop fuel rs s = Some (true, s') ->
    stok s' <> [] /\ ~ In rs (removelast (stok s')) /\
    (lastByteIs (stok s') rs = true \/ (serr s' <> None /\ sbuf s' = [])).
Proof.
  induction fuel as [|fuel IH]; intros s s' H; [discriminate|].
  simpl in H. destruct (trySplit rs s) as [[ok s1] | s1] eqn:Ht.
  - injection H as -> ->. now apply trySplit_token in Ht.
  - destruct (serr s1); [discriminate|].
    destruct (makeRoom s1) as [[ok s2] | s2] eqn:Hm.
    + apply makeRoom_inl in Hm. congruence.
    + now apply IH in H.
Qed.

Lemma Scan_token (rs : byte) (s s' : Scanner) :
  Scan rs s = (true, s') ->
  stok s' <> [] /\ ~ In rs (removelast (stok s')) /\
  (lastByteIs (stok s') rs = true \/ (serr s' <> None /\ sbuf s' = [])).
Proof.
  intros H. pose proof (Scan_scanLoop rs s) as HS. rewrite H in HS.
  now apply scanLoop_token in HS.
Qed.

Lemma Scan_ended (rs : byte) (s : Scanner) :
  serr s <> None -> sbuf s = [] -> fst (Scan rs s) = false.
Proof.
  intros He Hb. destruct (Scan_empty rs s) as (s' & Hs & _).
  - unfold rest. destruct (serr s); [assumption | contradiction].
  - now rewrite Hs.
Qed.

Lemma scanAll_total (rs : byte) (fuel : nat) :
  forall s, (pending s < fuel)%nat -> exists toks, scanAll fuel rs s = Some toks.
Proof.
  induction fuel as [|fuel IH]; intros s Hf; [lia|].
  cbn [scanAll]. destruct (Scan rs s) as [[|] s'] eqn:Hs.
  - apply Scan_progress in Hs. destruct (IH s') as (toks & ->); [lia|].
    eexists. reflexivity.
  - eexists. reflexivity.
Qed.

Lemma scanAll_shape (rs : byte) (fuel : nat) :
  forall s toks,
    scanAll fuel rs s = Some toks ->
    Forall (fun t => t <> [] /\ ~ In rs (removelast t)) toks /\
    (forall pre t ts, toks = pre ++ t :: ts -> ts <> [] ->
                      lastByteIs t rs = true).
Proof.
  induction fuel as [|fuel IH]; intros s toks H; [discriminate|].
  cbn [scanAll] in H. destruct (Scan rs s) as [[|] s'] eqn:Hs.
  - destruct (scanAll fuel rs s') as [toks'|] eqn:Hall; [|discriminate].
    injection H as <-. destruct (IH s' toks' Hall) as [Hshape Hsep].
    destruct (Scan_token rs s s' Hs) as (Hne & Hn & Hlast).
    split; [constructor; [split|]; assumption|].
    intros pre t ts Heq Hts. destruct pre as [|x pre].
    + simpl in Heq. injection Heq as <- <-.
      destruct Hlast as [Hl | [He Hb]]; [exact Hl|].
      exfalso. apply Hts. destruct fuel as [|fuel]; [discriminate Hall|].
      cbn [scanAll] in Hall. pose proof (Scan_ended rs s' He Hb) as Hend.
      destruct (Scan rs s') as [[|] s'']; [discriminate Hend|].
      now injection Hall as <-.
    + simpl in Heq. injection Heq as _ Heq. now apply (Hsep pre t ts).
  - injection H as <-. split; [constructor|].
    intros pre t ts Heq. now destruct pre.
Qed.

(** ** One pull *)

Section ReadProperties.

Context {U : Type}.
Implicit Types (lr : Reader U) (f : FilterFunc U) (fs pre post : list (FilterFunc U)).
Implicit Types (line p buf out : bytes) (sc : Scanner).

Lemma Read_scanned lr p sc :
  Scan (RS (awkVars lr)) (scanner lr) = (true, sc) ->
  Read p lr =
  (let '(lineBytes, bufErr, lr') :=
     applyFilters (filterFuncs lr) (stok sc) (scanned lr sc) in
   (len lineBytes, bufErr, fst (copy p lineBytes), lr')).
Proof. intros Hs. unfold Read. rewrite Hs. reflexivity. Qed.

Lemma Read_ended lr p sc :
  Scan (RS (awkVars lr)) (scanner lr) = (false, sc) ->
  Read p lr =
  (0, Some (match ScannerErr sc with Some e => e | None => EOF end),
   fst (copy p nullBytes), set_scanner lr sc).
Proof. intros Hs. unfold Read. rewrite Hs. reflexivity. Qed.

Lemma applyFilters_passed pre post line lr out lr' :
  passAll pre line lr = Some (out, lr') ->
  applyFilters (pre ++ post) line lr = applyFilters post out lr'.
Proof.
  revert line lr. induction pre as [|f pre IH]; intros line lr Hp.
  - simpl in Hp. injection Hp as <- <-. reflexivity.
  - simpl in *. destruct (call f line lr) as [[o e] lr1].
    destruct e as [e|]; [discriminate|]. now apply IH.
Qed.

Lemma passAll_app pre post line lr out lr' :
  passAll pre line lr = Some (out, lr') ->
  passAll (pre ++ post) line lr = passAll post out lr'.
Proof.
  revert line lr. induction pre as [|f pre IH]; intros line lr Hp.
  - simpl in Hp. injection Hp as <- <-. reflexivity.
  - simpl in *. destruct (call f line lr) as [[o e] lr1].
    destruct e as [e|]; [discriminate|]. now apply IH.
Qed.

(** The chain stops at the first function that returns a non-nil error. *)
Lemma applyFilters_stops pre f post line lr l1 lr1 out e lr2 :
  passAll pre line lr = Some (l1, lr1) ->
  call f l1 lr1 = (out, Some e, lr2) ->
  applyFilters (pre ++ f :: post) line lr =
  match e with
  | ErrOmitLine => (nullBytes, None, lr2)
  | _ => (out, Some e, lr2)
  end.
Proof.
  intros Hp Hc. rewrite (applyFilters_passed _ _ _ _ _ _ Hp).
  simpl. rewrite Hc. destruct e; reflexivity.
Qed.

(** What a closure leaves alone. *)
Lemma call_frame f line lr :
  let lr' := snd (call f line lr) in
  scanner lr' = scanner lr /\ filterFuncs lr' = filterFuncs lr /\
  NR (awkVars lr') = NR (awkVars lr) /\ RS (awkVars lr') = RS (awkVars lr) /\
  FS (awkVars lr') = FS (awkVars lr) /\
  length (results lr') = length (results lr).
Proof.
  destruct f as [g | g | k]; simpl.
  - destruct (g line (user lr)) as [[o e] u]. simpl. tauto.
  - unfold awkArgs. simpl.
    match goal with |- context [g ?a ?b ?c ?d] => destruct (g a b c d) as [[o e] u] end.
    destruct e as [e|]; simpl; [tauto|].
    match goal with |- context [if ?c then _ else _] => destruct c end;
      simpl; tauto.
  - repeat split. generalize (results lr). clear.
    induction k as [|k IH]; intros [|c cs]; simpl; try reflexivity.
    now rewrite IH.
Qed.

Lemma applyFilters_frame fs line lr :
  let lr' := snd (applyFilters fs line lr) in
  scanner lr' = scanner lr /\ filterFuncs lr' = filterFuncs lr /\
  NR (awkVars lr') = NR (awkVars lr) /\ RS (awkVars lr') = RS (awkVars lr) /\
  FS (awkVars lr') = FS (awkVars lr) /\
  length (results lr') = length (results lr).
Proof.
  revert line lr. induction fs as [|f fs IH]; intros line lr; simpl.
  - tauto.
  - pose proof (call_frame f line lr) as Hc. simpl in Hc.
    destruct (call f line lr) as [[o e] lr1]. simpl in Hc.
    destruct e as [e|].
    + destruct e; simpl; exact Hc.
    + specialize (IH o lr1). simpl in IH.
      destruct Hc as (? & ? & ? & ? & ? & ?).
      destruct IH as (? & ? & ? & ? & ? & ?).
      repeat split; congruence.
Qed.

Lemma passAll_frame fs line lr out lr' :
  passAll fs line lr = Some (out, lr') ->
  scanner lr' = scanner lr /\ filterFuncs lr' = filterFuncs lr /\
  NR (awkVars lr') = NR (awkVars lr) /\ RS (awkVars lr') = RS (awkVars lr) /\
  FS (awkVars lr') = FS (awkVars lr) /\
  length (results lr') = length (results lr).
Proof.
  revert line lr. induction fs as [|f fs IH]; intros line lr; simpl.
  - intros H. injection H as <- <-. tauto.
  - pose proof (call_frame f line lr) as Hc. simpl in Hc.
    destruct (call f line lr) as [[o e] lr1]. simpl in Hc.
    destruct e as [e|]; [discriminate|].
    intros H. specialize (IH o lr1 H).
    destruct Hc as (? & ? & ? & ? & ? & ?).
    destruct IH as (? & ? & ? & ? & ? & ?).
    repeat split; congruence.
Qed.

Lemma Read_frame lr p :
  let lr' := snd (Read p lr) in
  filterFuncs lr' = filterFuncs lr /\ RS (awkVars lr') = RS (awkVars lr) /\
  FS (awkVars lr') = FS (awkVars lr) /\
  length (results lr') = length (results lr) /\
  scanner lr' = snd (Scan (RS (awkVars lr)) (scanner lr)) /\
  NR (awkVars lr') =
  (if fst (Scan (RS (awkVars lr)) (scanner lr))
   then wrapInt (NR (awkVars lr) + 1) else NR (awkVars lr)).
Proof.
  destruct (Scan (RS (awkVars lr)) (scanner lr)) as [[|] sc] eqn:Hs.
  - rewrite (Read_scanned _ _ _ Hs).
    pose proof (applyFilters_frame (filterFuncs lr) (stok sc) (scanned lr sc)) as Hf.
    destruct (applyFilters (filterFuncs lr) (stok sc) (scanned lr sc))
      as [[l e] lr2]. simpl in *. tauto.
  - rewrite (Read_ended _ _ _ Hs). simpl. repeat split; lia.
Qed.

End ReadProperties.

(** ** Draining *)

Section DrainProperties.

Context {U : Type}.
Implicit Types (lr : Reader U) (f : FilterFunc U) (fs pre post : list (FilterFunc U)).
Implicit Types (line p buf out : bytes) (sc : Scanner).

Lemma drain_total fuel :
  forall buf lr,
    (pending (scanner lr) < fuel)%nat ->
    exists r, drain fuel buf lr = Some r.
Proof.
  induction fuel as [|fuel IH]; intros buf lr Hlt; [lia|].
  simpl drain.
  pose proof (Read_frame lr buf) as Hfr. simpl in Hfr.
  destruct Hfr as (_ & _ & _ & _ & Hsc & _).
  destruct (Scan (RS (awkVars lr)) (scanner lr)) as [[|] s'] eqn:Hs.
  - apply Scan_progress in Hs.
    destruct (Read buf lr) as [[[n err] buf'] lr'].
    simpl in Hsc.
    destruct err as [[| |m]|]; try (eexists; reflexivity).
    apply IH. rewrite Hsc. lia.
  - rewrite (Read_ended _ _ _ Hs).
    destruct (ScannerErr s') as [[| |m]|]; eexists; reflexivity.
Qed.

Lemma Discard_total lr : exists r, Discard lr = Some r.
Proof. apply drain_total. lia. Qed.

Lemma drain_more_fuel fuel :
  forall buf lr r fuel',
    drain fuel buf lr = Some r -> (fuel <= fuel')%nat ->
    drain fuel' buf lr = Some r.
Proof.
  induction fuel as [|fuel IH]; intros buf lr r fuel' Hd Hle; [discriminate|].
  destruct fuel' as [|fuel']; [lia|].
  simpl in *. destruct (Read buf lr) as [[[n err] buf'] lr'].
  destruct err as [[| |m]|]; try assumption.
  apply IH; [assumption | lia].
Qed.

Lemma drain_after_Drained lr0 buf0 lr buf :
  Drained lr0 buf0 lr buf ->
  forall fuel r, drain fuel buf lr = Some r ->
  exists fuel0, drain fuel0 buf0 lr0 = Some r.
Proof.
  induction 1 as [lr buf | lr buf n buf1 lr1 lr' buf' Hr Hd IH]; intros fuel r Hdr.
  - now exists fuel.
  - destruct (IH fuel r Hdr) as (fuel0 & H0).
    exists (S fuel0). simpl. now rewrite Hr.
Qed.

Lemma Discard_after_Drained lr0 lr buf fuel r :
  Drained lr0 discardBuf lr buf ->
  drain fuel buf lr = Some r ->
  Discard lr0 = Some r.
Proof.
  intros Hd Hdr.
  destruct (drain_after_Drained _ _ _ _ Hd _ _ Hdr) as (fuel0 & H0).
  destruct (Discard_total lr0) as (r' & Hr'). rewrite Hr'. unfold Discard in Hr'.
  pose proof (drain_more_fuel _ _ _ _ (Nat.max fuel0 (S (pending (scanner lr0))))
                H0 (Nat.le_max_l _ _)) as E1.
  pose proof (drain_more_fuel _ _ _ _ (Nat.max fuel0 (S (pending (scanner lr0))))
                Hr' (Nat.le_max_r _ _)) as E2.
  congruence.
Qed.

(** A drain never reports the end of the stream as a failure. *)
Lemma drain_never_EOF fuel :
  forall buf lr err lr',
    drain fuel buf lr = Some (err, lr') -> err <> Some EOF.
Proof.
  induction fuel as [|fuel IH]; intros buf lr err lr' Hd; [discriminate|].
  simpl in Hd. destruct (Read buf lr) as [[[n e] buf'] lr1].
  destruct e as [[| |m]|].
  - injection Hd as <- <-. discriminate.
  - injection Hd as <- <-. discriminate.
  - injection Hd as <- <-. discriminate.
  - eapply IH; eassumption.
Qed.

(** A drain leaves the chain as it is and keeps every captured variable. *)
Lemma drain_frame fuel :
  forall buf lr err lr',
    drain fuel buf lr = Some (err, lr') ->
    filterFuncs lr' = filterFuncs lr /\
    length (results lr') = length (results lr).
Proof.
  induction fuel as [|fuel IH]; intros buf lr err lr' Hd; [discriminate|].
  simpl in Hd.
  pose proof (Read_frame lr buf) as Hfr. simpl in Hfr.
  destruct Hfr as (Hf & _ & _ & Hl & _).
  destruct (Read buf lr) as [[[n e] buf'] lr1]. simpl in Hf, Hl.
  destruct e as [[| |m]|].
  - injection Hd as <- <-. now split.
  - injection Hd as <- <-. now split.
  - injection Hd as <- <-. now split.
  - destruct (IH _ _ _ _ Hd) as [? ?]. split; congruence.
Qed.

End DrainProperties.

(** ** Hard errors *)

Section HardErrors.

Context {U : Type}.
Implicit Types (lr : Reader U) (f : FilterFunc U) (pre post : list (FilterFunc U)).

(** C1, as amended.  When a filter function returns an error that is not
    [ErrOmitLine], the functions after it are not applied and [Read]
    returns that error; the record it returns with the error is the byte
    sequence the failing function returned, which is empty when that
    function is the closure of [AWKMode]. *)
Theorem hard_error_stops_chain lr p sc pre f post l1 lr1 out e lr2 :
  Scan (RS (awkVars lr)) (scanner lr) = (true, sc) ->
  filterFuncs lr = pre ++ f :: post ->
  passAll pre (stok sc) (scanned lr sc) = Some (l1, lr1) ->
  call f l1 lr1 = (out, Some e, lr2) ->
  e <> ErrOmitLine ->
  Read p lr = (len out, Some e, fst (copy p out), lr2) /\
  (forall g, f = AWKFunc g -> out = []).
Proof.
  intros Hs Hf Hp Hc He. split.
  - rewrite (Read_scanned _ _ _ Hs), Hf.
    rewrite (applyFilters_stops _ _ _ _ _ _ _ _ _ _ Hp Hc).
    destruct e; [congruence | reflexivity | reflexivity].
  - intros g ->. simpl in Hc.
    destruct (awkArgs l1 (awkVars lr1)) as [[[a l] fl] v].
    match type of Hc with context [g ?a ?b ?c ?d] =>
      destruct (g a b c d) as [[r er] u] end.
    destruct er as [er|].
    + now injection Hc as <- _ _.
    + match type of Hc with context [if ?c then _ else _] => destruct c end;
        discriminate.
Qed.

End HardErrors.

Lemma hard_error_stops_chain_witness :
  Read buf16 lrFailing =
  (4, Some (ErrOther "boom"), fst (copy buf16 fooLine),
   scanned lrFailing (snd (Scan x0a (scanner lrFailing)))).
Proof.
  refine (proj1 (hard_error_stops_chain lrFailing buf16
            (snd (Scan x0a (scanner lrFailing))) []
            (failWith (ErrOther "boom")) [] fooLine
            (scanned lrFailing (snd (Scan x0a (scanner lrFailing))))
            fooLine (ErrOther "boom")
            (scanned lrFailing (snd (Scan x0a (scanner lrFailing))))
            _ _ _ _ _));
    [reflexivity | reflexivity | reflexivity | reflexivity | discriminate].
Defined.

(** C1 as stated fails: the callback of [lrFailing] returns the four bytes
    of its line with a hard error, and [Read] hands both to the caller. *)
Lemma hard_error_record_not_empty :
  let '(n, err, p, _) := Read buf16 lrFailing in
  n = 4 /\ err = Some (ErrOther "boom") /\ firstn 4 p = fooLine.
Proof. vm_compute. repeat split. Qed.

(** ** The caller's buffer *)

Lemma copy_at_most (dst src : bytes) :
  snd (copy dst src) <= len dst /\ snd (copy dst src) <= len src /\
  len (fst (copy dst src)) = len dst /\
  firstn (Z.to_nat (snd (copy dst src))) (fst (copy dst src)) =
  firstn (Z.to_nat (snd (copy dst src))) src.
Proof.
  unfold copy. simpl. repeat split; try lia.
  - unfold len. rewrite length_app, length_firstn, length_skipn. lia.
  - rewrite firstn_app, firstn_firstn, length_firstn.
    replace (Z.to_nat (Z.min (len dst) (len src)) -
             Init.Nat.min (Z.to_nat (Z.min (len dst) (len src))) (length src))%nat
      with 0%nat by (unfold len; lia).
    rewrite Nat.min_id. simpl. apply app_nil_r.
Qed.

(** C2, at the failing input.  Over the input [foo\n] and with a buffer of
    two bytes, [Read] copies two bytes and returns 4, the length of the
    record. *)
Theorem Read_returns_record_length :
  let '(n, err, p, _) := Read buf2 lrFoo in
  n = 4 /\ err = None /\ p = B "fo" /\ len buf2 = 2 /\
  snd (copy buf2 fooLine) = 2.
Proof. vm_compute. repeat split. Qed.

(** ** The tokenizer *)

Ltac no_sep :=
  repeat constructor; cbv; intuition discriminate.

Lemma recordsFit_joinRecords (rs : byte) (frs : list bytes) (final : bytes) :
  Forall (fun r => ~ In rs r) frs -> ~ In rs final ->
  Forall (fun r => len r + 1 < MaxScanTokenSize) frs ->
  len final < MaxScanTokenSize ->
  recordsFit rs (joinRecords rs frs final).
Proof.
  intros Hf Hn Hl Hlf. unfold recordsFit.
  rewrite splitRecords_joinRecords by assumption.
  unfold expectedRecords. apply Forall_app. split.
  - apply Forall_map. eapply Forall_impl; [|exact Hl].
    intros r Hr. cbn beta. rewrite len_app. exact Hr.
  - destruct final; constructor; [assumption | constructor].
Qed.

(** C3, as amended.  An input made of [N] separator-terminated fragments
    and a last fragment without separator (every input is,
    [joinRecords_exists]) contains the separator [N] times; when its
    records are shorter than [bufio.MaxScanTokenSize] and the source never
    returns more than [maxConsecutiveEmptyReads] empty reads in a row, it
    is tokenized, however the source chunks it, into the [N] terminated
    records followed by the last fragment when that is not empty: [N + 1]
    records, or [N].  An empty input gives no record, and [foo\nbar\nbaz]
    collected by [ReadAllSliceString] gives [foo\n], [bar\n], [baz]. *)
Theorem tokenizer_record_count (rs : byte) (chunks : list bytes) (e : error)
  (frs : list bytes) (final : bytes) :
  Forall (fun r => ~ In rs r) frs -> ~ In rs final ->
  concat chunks = joinRecords rs frs final ->
  quiet chunks = true ->
  Forall (fun r => len r + 1 < MaxScanTokenSize) frs ->
  len final < MaxScanTokenSize ->
  let N := count_occ Byte.byte_eq_dec (concat chunks) rs in
  exists toks,
    tokenize rs (NewScanner chunks e) = Some toks /\
    toks = expectedRecords rs frs final /\
    N = length frs /\
    length toks = match final with [] => N | _ :: _ => (N + 1)%nat end /\
    (concat chunks = [] -> toks = []) /\
    option_map fst (ReadAllSliceString (NewReader [fooBarBaz] EOF tt)) =
    Some ([B "foo" ++ nl; B "bar" ++ nl; B "baz"], None).
Proof.
  intros Hf Hn Hc Hq Hl Hlf N.
  assert (HN : N = length frs).
  { unfold N. rewrite Hc. now apply count_occ_joinRecords. }
  exists (expectedRecords rs frs final).
  split; [|split; [reflexivity | split; [assumption | split; [|split]]]].
  - rewrite (tokenize_records rs (NewScanner chunks e)).
    + unfold rest. cbn [serr NewScanner sbuf srcChunks app].
      rewrite Hc. now rewrite splitRecords_joinRecords.
    + apply scannable_NewScanner; [assumption|].
      rewrite Hc. now apply recordsFit_joinRecords.
  - rewrite length_expectedRecords, HN. destruct final; lia.
  - intros He. rewrite He in Hc. unfold joinRecords in Hc.
    symmetry in Hc. apply app_eq_nil in Hc as [Hc ->].
    destruct frs as [|r frs]; [reflexivity|].
    simpl in Hc. apply app_eq_nil in Hc as [Hc _].
    apply app_eq_nil in Hc as [_ Hc]. discriminate.
  - vm_compute. reflexivity.
Qed.

Lemma tokenizer_record_count_witness :
  exists toks,
    tokenize x0a (NewScanner [B "foo" ++ nl ++ B "b"; B "ar" ++ nl ++ B "baz"] EOF)
    = Some toks /\
    toks = [B "foo" ++ nl; B "bar" ++ nl; B "baz"] /\
    length toks = 3%nat.
Proof.
  destruct (tokenizer_record_count x0a
              [B "foo" ++ nl ++ B "b"; B "ar" ++ nl ++ B "baz"] EOF
              [B "foo"; B "bar"] (B "baz"))
    as (toks & Ht & He & _ & Hl & _);
    [no_sep | no_sep | reflexivity | reflexivity
     | repeat constructor | reflexivity |].
  exists toks. split; [exact Ht | split; [exact He | exact Hl]].
Defined.

(** C3 as stated fails: [longLine] holds no separator and is not empty,
    so one record is expected; the scanner's buffer is full at
    [bufio.MaxScanTokenSize] bytes before any token is found, [Scan]
    gives up with [bufio.ErrTooLong], and no record comes out. *)
Lemma long_record_not_tokenized :
  count_occ Byte.byte_eq_dec longLine x0a = 0%nat /\
  longLine <> [] /\
  tokenize x0a (NewScanner [longLine] EOF) = Some [] /\
  fst (fst (Read buf16 (NewReader [longLine] EOF tt))) = (0, Some ErrTooLong) /\
  option_map fst (ReadAllSliceString (NewReader [longLine] EOF tt)) =
  Some ([], Some ErrTooLong).
Proof.
  split; [vm_compute; reflexivity|].
  split; [discriminate|].
  split; [vm_compute; reflexivity|].
  split; vm_compute; reflexivity.
Qed.
(** ** Omitted records *)

Lemma copy_nothing (p : bytes) : fst (copy p nullBytes) = p.
Proof.
  unfold copy, nullBytes. simpl.
  replace (Z.min (len p) (len (@nil byte))) with 0
    by (unfold len; simpl; lia).
  reflexivity.
Qed.

Lemma nth_appendAt_other (j k : nat) (x : bytes) (cells : list (list bytes)) :
  j <> k -> nth k (appendAt j x cells) [] = nth k cells [].
Proof.
  revert k cells. induction j as [|j IH]; intros k [|c cs] Hne; simpl;
    try reflexivity.
  - destruct k; [congruence | reflexivity].
  - destruct k; [reflexivity|]. apply IH. congruence.
Qed.

Lemma nth_appendAt_same (k : nat) (x : bytes) (cells : list (list bytes)) :
  (k < length cells)%nat ->
  nth k (appendAt k x cells) [] = nth k cells [] ++ [x].
Proof.
  revert cells. induction k as [|k IH]; intros [|c cs] Hlt; simpl in *;
    try lia; try reflexivity.
  apply IH. lia.
Qed.

Section OmittedRecords.

Context {U : Type}.
Implicit Types (lr : Reader U) (f : FilterFunc U) (pre post : list (FilterFunc U)).

Lemma call_keeps_cell f k line lr :
  otherThan k f ->
  nth k (results (snd (call f line lr))) [] = nth k (results lr) [].
Proof.
  destruct f as [g | g | j]; simpl; intros Ho.
  - destruct (g line (user lr)) as [[o e] u]. reflexivity.
  - unfold awkArgs. simpl.
    match goal with |- context [g ?a ?b ?c ?d] => destruct (g a b c d) as [[o e] u] end.
    destruct e as [e|]; simpl; [reflexivity|].
    match goal with |- context [if ?c then _ else _] => destruct c end;
      reflexivity.
  - now apply nth_appendAt_other.
Qed.

Lemma applyFilters_grepNothing k pre post :
  Forall (otherThan k) pre ->
  forall line lr,
    nth k (results (snd (applyFilters (pre ++ grepNothing :: post) line lr))) []
    = nth k (results lr) [].
Proof.
  induction 1 as [|f pre Hf Hpre IH]; intros line lr.
  - reflexivity.
  - simpl. pose proof (call_keeps_cell f k line lr Hf) as Hc.
    destruct (call f line lr) as [[o e] lr1]. simpl in Hc.
    destruct e as [e|].
    + destruct e; simpl; exact Hc.
    + rewrite IH. exact Hc.
Qed.

Lemma Read_grepNothing k pre post lr p :
  filterFuncs lr = pre ++ grepNothing :: post ->
  Forall (otherThan k) pre ->
  nth k (results (snd (Read p lr))) [] = nth k (results lr) [].
Proof.
  intros Hf Hpre.
  destruct (Scan (RS (awkVars lr)) (scanner lr)) as [[|] sc] eqn:Hs.
  - rewrite (Read_scanned _ _ _ Hs), Hf.
    pose proof (applyFilters_grepNothing k pre post Hpre (stok sc) (scanned lr sc))
      as Ha.
    destruct (applyFilters (pre ++ grepNothing :: post) (stok sc) (scanned lr sc))
      as [[l e] lr2]. exact Ha.
  - rewrite (Read_ended _ _ _ Hs). reflexivity.
Qed.

Lemma drain_grepNothing k pre post fuel :
  Forall (otherThan k) pre ->
  forall buf lr err lr',
    filterFuncs lr = pre ++ grepNothing :: post ->
    drain fuel buf lr = Some (err, lr') ->
    nth k (results lr') [] = nth k (results lr) [].
Proof.
  intros Hpre. induction fuel as [|fuel IH]; intros buf lr err lr' Hf Hd;
    [discriminate|].
  simpl in Hd.
  pose proof (Read_grepNothing k pre post lr buf Hf Hpre) as Hk.
  pose proof (Read_frame lr buf) as Hfr. simpl in Hfr.
  destruct Hfr as (Hff & _).
  destruct (Read buf lr) as [[[n e] buf'] lr1]. simpl in Hk, Hff.
  destruct e as [[| |m]|].
  - now injection Hd as <- <-.
  - now injection Hd as <- <-.
  - now injection Hd as <- <-.
  - rewrite <- Hk. eapply IH; [|eassumption]. congruence.
Qed.

Lemma capturesAllocated_otherThan lr :
  capturesAllocated lr ->
  Forall (otherThan (length (results lr))) (filterFuncs lr).
Proof.
  unfold capturesAllocated. apply Forall_impl.
  intros [g | g | j]; simpl; trivial. lia.
Qed.

Lemma collect_nothing_kept lr :
  capturesAllocated lr -> In grepNothing (filterFuncs lr) ->
  exists err lr',
    ReadAllSlice lr = Some ([], err, lr') /\
    ReadAllSliceString lr = Some ([], err, lr').
Proof.
  intros Hcap Hin.
  destruct (in_split _ _ Hin) as (pre & post & Hf).
  pose proof (capturesAllocated_otherThan lr Hcap) as Ho.
  rewrite Hf in Ho. apply Forall_app in Ho as [Hpre _].
  destruct (Discard_total (collecting lr)) as ([err lr'] & Hd).
  assert (Hk : nth (length (results lr)) (results lr') [] = []).
  { assert (Hchain : filterFuncs (collecting lr) =
                     pre ++ grepNothing ::
                       (post ++ [CollectFunc (length (results lr))])).
    { unfold collecting. simpl. rewrite Hf, <- app_assoc. reflexivity. }
    unfold Discard in Hd.
    rewrite (drain_grepNothing _ _ _ _ Hpre _ _ _ _ Hchain Hd).
    unfold collecting. simpl. now rewrite nth_middle. }
  exists err, lr'. unfold ReadAllSlice, ReadAllSliceString.
  rewrite Hd, Hk. split; reflexivity.
Qed.

(** C4.  When a filter function returns [ErrOmitLine], the functions after
    it are not applied, [Read] returns no byte and a nil error and leaves
    the caller's buffer alone, and a drain goes on with the next call of
    [Read].  So a chain that contains the closure of a [Grep] whose
    predicate is always false collects nothing, whatever the input. *)
Theorem omit_skips_record lr p sc pre f post l1 lr1 out lr2 :
  Scan (RS (awkVars lr)) (scanner lr) = (true, sc) ->
  filterFuncs lr = pre ++ f :: post ->
  passAll pre (stok sc) (scanned lr sc) = Some (l1, lr1) ->
  call f l1 lr1 = (out, Some ErrOmitLine, lr2) ->
  Read p lr = (0, None, p, lr2) /\
  scanner lr2 = sc /\
  (forall fuel, drain (S fuel) p lr = drain fuel p lr2) /\
  (forall lr0 : Reader U,
      capturesAllocated lr0 -> In grepNothing (filterFuncs lr0) ->
      exists err lr',
        ReadAllSlice lr0 = Some ([], err, lr') /\
        ReadAllSliceString lr0 = Some ([], err, lr')).
Proof.
  intros Hs Hf Hp Hc.
  assert (Hr : Read p lr = (0, None, p, lr2)).
  { rewrite (Read_scanned _ _ _ Hs), Hf.
    rewrite (applyFilters_stops _ _ _ _ _ _ _ _ _ _ Hp Hc).
    now rewrite copy_nothing. }
  split; [exact Hr|]. split; [|split].
  - destruct (passAll_frame _ _ _ _ _ Hp) as (Hsc & _).
    pose proof (call_frame f l1 lr1) as Hcf. rewrite Hc in Hcf. simpl in Hcf.
    destruct Hcf as (Hsc2 & _). rewrite Hsc2, Hsc. reflexivity.
  - intros fuel. simpl. now rewrite Hr.
  - intros lr0. apply collect_nothing_kept.
Qed.

End OmittedRecords.

Lemma omit_skips_record_witness :
  Read buf16 lrGrepNothing =
  (0, None, buf16,
   scanned lrGrepNothing (snd (Scan x0a (scanner lrGrepNothing)))) /\
  exists err lr',
    ReadAllSlice lrGrepNothing = Some ([], err, lr') /\
    ReadAllSliceString lrGrepNothing = Some ([], err, lr').
Proof.
  pose proof (omit_skips_record lrGrepNothing buf16
                (snd (Scan x0a (scanner lrGrepNothing))) [] grepNothing []
                fooLine
                (scanned lrGrepNothing (snd (Scan x0a (scanner lrGrepNothing))))
                nullBytes
                (scanned lrGrepNothing (snd (Scan x0a (scanner lrGrepNothing))))
                eq_refl eq_refl eq_refl eq_refl) as (Hr & _ & _ & Hg).
  split; [exact Hr|].
  apply Hg.
  - repeat constructor.
  - left. reflexivity.
Defined.

(** ** End of stream signalled by a callback *)

Section CallbackEOF.

Context {U : Type}.
Implicit Types (lr : Reader U) (f : FilterFunc U) (pre post : list (FilterFunc U)).

(** C5.  When a filter function returns [io.EOF], the functions after it
    are not applied and [Read] returns [io.EOF]; a drain that has come to
    this call of [Read] ends there with a nil error, and so do
    [ReadAllSlice] and [ReadAllSliceString]. *)
Theorem eof_from_callback_ends_cleanly lr p sc pre f post l1 lr1 out lr2 :
  Scan (RS (awkVars lr)) (scanner lr) = (true, sc) ->
  filterFuncs lr = pre ++ f :: post ->
  passAll pre (stok sc) (scanned lr sc) = Some (l1, lr1) ->
  call f l1 lr1 = (out, Some EOF, lr2) ->
  Read p lr = (len out, Some EOF, fst (copy p out), lr2) /\
  (forall lr0 : Reader U,
      Drained lr0 discardBuf lr p -> Discard lr0 = Some (None, lr2)) /\
  (forall lr0 : Reader U,
      Drained (collecting lr0) discardBuf lr p ->
      ReadAllSlice lr0 =
        Some (nth (length (results lr0)) (results lr2) [], None, lr2) /\
      ReadAllSliceString lr0 =
        Some (nth (length (results lr0)) (results lr2) [], None, lr2)).
Proof.
  intros Hs Hf Hp Hc.
  assert (Hr : Read p lr = (len out, Some EOF, fst (copy p out), lr2)).
  { rewrite (Read_scanned _ _ _ Hs), Hf.
    now rewrite (applyFilters_stops _ _ _ _ _ _ _ _ _ _ Hp Hc). }
  assert (Hd : drain 1 p lr = Some (None, lr2)).
  { simpl. now rewrite Hr. }
  split; [exact Hr|]. split.
  - intros lr0 H0. exact (Discard_after_Drained _ _ _ _ _ H0 Hd).
  - intros lr0 H0. unfold ReadAllSlice, ReadAllSliceString.
    rewrite (Discard_after_Drained _ _ _ _ _ H0 Hd). split; reflexivity.
Qed.

End CallbackEOF.

Lemma eof_from_callback_ends_cleanly_witness :
  Discard lrEOF =
  Some (None, scanned lrEOF (snd (Scan x0a (scanner lrEOF)))).
Proof.
  refine (proj1 (proj2 (eof_from_callback_ends_cleanly lrEOF discardBuf
            (snd (Scan x0a (scanner lrEOF))) [] (failWith EOF) []
            fooLine (scanned lrEOF (snd (Scan x0a (scanner lrEOF))))
            fooLine (scanned lrEOF (snd (Scan x0a (scanner lrEOF))))
            _ _ _ _)) lrEOF _);
    [reflexivity | reflexivity | reflexivity | reflexivity | constructor].
Defined.

(** ** The AWK adapter and the separator *)

Lemma bytes_eqb_refl (a : bytes) : bytes_eqb a a = true.
Proof. unfold bytes_eqb. now destruct (list_eq_dec Byte.byte_eq_dec a a). Qed.

Lemma bytes_eqb_eq (a b : bytes) : bytes_eqb a b = true <-> a = b.
Proof.
  unfold bytes_eqb. destruct (list_eq_dec Byte.byte_eq_dec a b); split;
    intros; congruence.
Qed.

Lemma stringOfByte_ascii (c : byte) :
  (Byte.to_N c < 128)%N -> stringOfByte c = [c].
Proof.
  intros H. unfold stringOfByte. apply N.ltb_lt in H. cbv zeta. now rewrite H.
Qed.

Lemma HasSuffix_app (s suffix : bytes) : HasSuffix (s ++ suffix) suffix = true.
Proof.
  unfold HasSuffix. rewrite length_app.
  replace (length s + length suffix - length suffix)%nat with (length s) by lia.
  rewrite skipn_app, skipn_all, Nat.sub_diag. simpl.
  rewrite bytes_eqb_refl, andb_true_r. apply Nat.leb_le. lia.
Qed.

Lemma TrimSuffix_app (s suffix : bytes) : TrimSuffix (s ++ suffix) suffix = s.
Proof.
  unfold TrimSuffix. rewrite HasSuffix_app, length_app.
  replace (length s + length suffix - length suffix)%nat with (length s) by lia.
  rewrite firstn_app, firstn_all, Nat.sub_diag. simpl. apply app_nil_r.
Qed.

Lemma HasSuffix_byte (s : bytes) (c : byte) : HasSuffix s [c] = lastByteIs s c.
Proof.
  destruct s as [|y s'] using rev_ind; [reflexivity|].
  unfold HasSuffix, lastByteIs. rewrite rev_app_distr, length_app.
  cbn [length rev app].
  replace (1 <=? length s' + 1)%nat with true by (symmetry; apply Nat.leb_le; lia).
  replace (length s' + 1 - 1)%nat with (length s') by lia.
  rewrite skipn_app, skipn_all, Nat.sub_diag. cbn [skipn app andb].
  unfold bytes_eqb.
  destruct (list_eq_dec Byte.byte_eq_dec [y] [c]) as [E | E].
  - injection E as ->. symmetry. apply byte_eqb_refl.
  - symmetry. apply byte_eqb_neq. intros ->. now apply E.
Qed.

Lemma awkArgs_terminated (content : bytes) (vars : AWKVars) :
  awkArgs (content ++ stringOfByte (RS vars)) vars =
  (true, content, Split (FS vars) content (-1),
   set_NF vars (len (Split (FS vars) content (-1)))).
Proof.
  unfold awkArgs. now rewrite HasSuffix_app, TrimSuffix_app.
Qed.

Section AwkSeparator.

Context {U : Type}.
Implicit Types (lr : Reader U).


End AwkSeparator.



(** ** Record numbers *)

Lemma maxInt_value : maxInt = 9223372036854775807.
Proof. reflexivity. Qed.

Lemma wrapInt_small (x : Z) : - maxInt - 1 <= x <= maxInt -> wrapInt x = x.
Proof.
  unfold wrapInt, maxInt, intSize. intros H.
  change (2 ^ (64 - 1)) with 9223372036854775808 in *.
  change (2 ^ 64) with 18446744073709551616.
  rewrite Z.mod_small; lia.
Qed.

Section RecordNumbers.

Context {U : Type}.
Implicit Types (lr : Reader U) (f : FilterFunc U) (pre post : list (FilterFunc U)).

Lemma Pulled_NR lr0 n lr :
  Pulled lr0 n lr -> NR (awkVars lr0) = 0 -> Z.of_nat n <= maxInt ->
  NR (awkVars lr) = Z.of_nat n.
Proof.
  induction 1 as [lr | lr n lr1 p sc Hp IH Hs | lr n lr1 p sc Hp IH Hs
                  | lr n lr1 f Hp IH | lr n lr1 rs Hp IH | lr n lr1 fs Hp IH];
    intros H0 Hn.
  - simpl. lia.
  - pose proof (Read_frame lr1 p) as Hf. simpl in Hf.
    destruct Hf as (_ & _ & _ & _ & _ & Hr). rewrite Hs in Hr. simpl in Hr.
    rewrite Hr, IH by (assumption || lia).
    replace (Z.of_nat (S n)) with (Z.of_nat n + 1) by lia.
    apply wrapInt_small. pose proof maxInt_value. lia.
  - pose proof (Read_frame lr1 p) as Hf. simpl in Hf.
    destruct Hf as (_ & _ & _ & _ & _ & Hr). rewrite Hs in Hr. simpl in Hr.
    rewrite Hr. now apply IH.
  - now apply IH.
  - now apply IH.
  - now apply IH.
Qed.


End RecordNumbers.


(** ** What the filter functions receive *)

Section FilterInput.

Context {U : Type}.
Implicit Types (lr : Reader U) (f : FilterFunc U) (pre post : list (FilterFunc U)).

Lemma call_map_closure (g : bytes -> U -> bytes * U) line lr :
  call (UserFunc (fun line u => let '(out, u) := g line u in (out, None, u)))
       line lr =
  (fst (g line (user lr)), None, set_user lr (snd (g line (user lr)))).
Proof. simpl. destruct (g line (user lr)) as [o u]. reflexivity. Qed.

Lemma call_grep_closure (g : bytes -> U -> bool * U) line lr :
  call (UserFunc (fun line u =>
          let '(keep, u) := g line u in
          if keep then (line, None, u) else (nullBytes, Some ErrOmitLine, u)))
       line lr =
  (if fst (g line (user lr)) then (line, None) else (nullBytes, Some ErrOmitLine),
   set_user lr (snd (g line (user lr)))).
Proof. simpl. destruct (g line (user lr)) as [[|] u]; reflexivity. Qed.

Lemma call_user_closure (g : bytes -> U -> bytes * option error * U) line lr :
  call (UserFunc (fun line u =>
          let '(newString, err, u) := g line u in (newString, err, u)))
       line lr =
  (fst (g line (user lr)), set_user lr (snd (g line (user lr)))).
Proof. simpl. destruct (g line (user lr)) as [[o e] u]. reflexivity. Qed.

(** C8.  When the tokenizer delivers a record, [Read] hands it to the
    first filter function as it is, and each later function gets what the
    one before returned.  The record is not empty and ends with the
    separator, unless it is the last record of the input; when the input
    left starts with a fragment terminated by the separator and the
    scanner can deliver the records left, the record is that fragment with
    its separator.  The closures of [Map], [MapString], [MapStringErr],
    [Grep], [GrepString] and [GrepByRegexp] hand the line they receive to
    the callback as it is, and [MapErr] adds the callback itself to the
    chain; only the closure of [AWKMode] strips a separator, the string
    [string(RS)], which is the separator byte when that is below 0x80.
    So [GrepString] with the predicate [s == "foo"] keeps nothing of the
    input [foo\n]. *)
Theorem filters_receive_separator lr p sc f post :
  let rs := RS (awkVars lr) in
  Scan rs (scanner lr) = (true, sc) ->
  filterFuncs lr = f :: post ->
  Read p lr =
    (let '(out, err, lr1) := call f (stok sc) (scanned lr sc) in
     let '(lineBytes, bufErr, lr') :=
       match err with
       | Some ErrOmitLine => (nullBytes, None, lr1)
       | Some e => (out, Some e, lr1)
       | None => applyFilters post out lr1
       end in
     (len lineBytes, bufErr, fst (copy p lineBytes), lr')) /\
  stok sc <> [] /\
  (lastByteIs (stok sc) rs = true \/ rest sc = []) /\
  (forall r d,
      scannable rs (scanner lr) ->
      rest (scanner lr) = r ++ rs :: d -> ~ In rs r ->
      stok sc = r ++ [rs]) /\
  (forall (g : bytes -> U -> bytes * U) lr1,
      exists c,
        filterFuncs (Map g lr1) = filterFuncs lr1 ++ [c] /\
        filterFuncs (MapString g lr1) = filterFuncs lr1 ++ [c] /\
        forall line lr2,
          call c line lr2 =
          (fst (g line (user lr2)), None, set_user lr2 (snd (g line (user lr2))))) /\
  (forall (g : bytes -> U -> bytes * option error * U) lr1,
      exists c,
        filterFuncs (MapStringErr g lr1) = filterFuncs lr1 ++ [c] /\
        filterFuncs (MapErr (UserFunc g) lr1) = filterFuncs lr1 ++ [UserFunc g] /\
        forall line lr2,
          call c line lr2 =
          (fst (g line (user lr2)), set_user lr2 (snd (g line (user lr2)))) /\
          call (UserFunc g) line lr2 = call c line lr2) /\
  (forall (g : bytes -> U -> bool * U) lr1,
      exists c,
        filterFuncs (Grep g lr1) = filterFuncs lr1 ++ [c] /\
        filterFuncs (GrepString g lr1) = filterFuncs lr1 ++ [c] /\
        forall line lr2,
          call c line lr2 =
          (if fst (g line (user lr2)) then (line, None)
           else (nullBytes, Some ErrOmitLine),
           set_user lr2 (snd (g line (user lr2))))) /\
  (forall re lr1,
      exists c,
        filterFuncs (GrepByRegexp re lr1) = filterFuncs lr1 ++ [c] /\
        forall line lr2,
          call c line lr2 =
          (if Match re line then (line, None) else (nullBytes, Some ErrOmitLine),
           set_user lr2 (user lr2))) /\
  (forall g lr1, filterFuncs (AWKMode g lr1) = filterFuncs lr1 ++ [AWKFunc g]) /\
  (forall r vars,
      awkArgs (r ++ stringOfByte (RS vars)) vars =
        (true, r, Split (FS vars) r (-1),
         set_NF vars (len (Split (FS vars) r (-1))))) /\
  (forall r vars,
      (Byte.to_N (RS vars) < 128)%N ->
      awkArgs (r ++ [RS vars]) vars =
        (true, r, Split (FS vars) r (-1),
         set_NF vars (len (Split (FS vars) r (-1))))) /\
  option_map fst (ReadAllSliceString lrGrepFoo) = Some ([], None) /\
  option_map fst (ReadAllSliceString lrGrepFooLine) = Some ([fooLine], None).
Proof.
  intros rs Hs Hf.
  split.
  { rewrite (Read_scanned _ _ _ Hs), Hf. simpl.
    destruct (call f (stok sc) (scanned lr sc)) as [[out err] lr1].
    destruct err as [[| |m]|]; reflexivity. }
  destruct (Scan_token rs (scanner lr) sc Hs) as (Hne & _ & Hlast).
  split; [exact Hne|].
  split.
  { destruct Hlast as [Hl | [He Hb]]; [now left | right].
    unfold rest. destruct (serr sc); [exact Hb | contradiction]. }
  split.
  { intros r d Hsc Hrest Hn.
    destruct (Scan_sep rs (scanner lr) r d Hn Hrest) as (sc' & Hs' & Htok & _).
    { intros He. destruct (scannable_rest rs _ Hsc He) as (Hwf & Hq & Hfit).
      split; [assumption|]. split; [assumption|].
      rewrite Hrest in Hfit. now apply recordsFit_sep in Hfit. }
    rewrite Hs in Hs'. injection Hs' as <-. exact Htok. }
  split.
  { intros g lr1. eexists. split; [reflexivity|]. split; [reflexivity|].
    intros line lr2. apply call_map_closure. }
  split.
  { intros g lr1. eexists. split; [reflexivity|]. split; [reflexivity|].
    intros line lr2. rewrite call_user_closure. split; [reflexivity|].
    simpl. destruct (g line (user lr2)) as [[o e] u]. reflexivity. }
  split.
  { intros g lr1. eexists. split; [reflexivity|]. split; [reflexivity|].
    intros line lr2. apply (call_grep_closure g). }
  split.
  { intros re lr1. eexists. split; [reflexivity|].
    intros line lr2. apply (call_grep_closure (fun line u => (Match re line, u))). }
  split; [reflexivity|].
  split; [intros r vars; apply awkArgs_terminated|].
  split.
  { intros r vars Ha. rewrite <- (stringOfByte_ascii (RS vars) Ha).
    apply awkArgs_terminated. }
  split; vm_compute; reflexivity.
Qed.

End FilterInput.

Lemma filters_receive_separator_witness :
  stok (snd (Scan x0a (scanner lrGrepFoo))) = fooLine /\
  lastByteIs (stok (snd (Scan x0a (scanner lrGrepFoo)))) x0a = true.
Proof.
  destruct (filters_receive_separator lrGrepFoo buf16
              (snd (Scan x0a (scanner lrGrepFoo)))
              (UserFunc (fun line u =>
                 let '(keep, u) := (bytes_eqb line (B "foo"), u) in
                 if keep then (line, None, u)
                 else (nullBytes, Some ErrOmitLine, u))) []
              eq_refl eq_refl)
    as (_ & _ & _ & Ht & _).
  split; [|reflexivity].
  apply (Ht (B "foo") []);
    [apply scannable_NewScanner; [reflexivity | repeat constructor]
    | reflexivity | no_sep].
Defined.

(** ** The AWK adapter and the field count *)

Lemma Split_empty (re : Regexp) :
  expr re <> [] -> Split re [] (-1) = [[]].
Proof.
  intros He. unfold Split. simpl.
  destruct (expr re) as [|x e]; [congruence|].
  rewrite len_cons.
  pose proof (len_nonneg e) as Hl.
  destruct (0 <? len e + 1) eqn:E; [reflexivity|].
  apply Z.ltb_ge in E. lia.
Qed.

Section AwkFieldCount.

Context {U : Type}.
Implicit Types (lr : Reader U).


End AwkFieldCount.



(** ** The collecting helpers *)
Section Collectors.

Context {U : Type}.
Implicit Types (lr : Reader U).

(** C10.  [ReadAllSlice] and [ReadAllSliceString] return, and the reader
    they leave has the collecting closure at the end of its chain, one
    function more than before.  A later call of [Read] leaves the chain
    as it is, and when it gets a record that the functions before the
    collector pass on, the collector appends what it receives to the
    variable it captured.  Over [foo\nbar\nbaz] with a callback failing on
    [bar\n], [ReadAllSliceString] returns [foo\n] and the error, and the
    next call of [Read] adds [baz] to the same variable. *)
Theorem collectors_stay_in_chain lr :
  let k := length (results lr) in
  exists res err lr',
    ReadAllSlice lr = Some (res, err, lr') /\
    ReadAllSliceString lr = Some (res, err, lr') /\
    filterFuncs lr' = filterFuncs lr ++ [CollectFunc k] /\
    length (filterFuncs lr') = S (length (filterFuncs lr)) /\
    (forall p, filterFuncs (snd (Read p lr')) = filterFuncs lr') /\
    (forall p sc l1 lr1,
        Scan (RS (awkVars lr')) (scanner lr') = (true, sc) ->
        passAll (filterFuncs lr) (stok sc) (scanned lr' sc) = Some (l1, lr1) ->
        nth k (results (snd (Read p lr'))) [] = nth k (results lr1) [] ++ [l1]) /\
    (option_map (fun r => (fst r, results (snd r))) (ReadAllSliceString lrFailOnBar)
       = Some ([fooLine], Some (ErrOther "boom"), [[fooLine]]) /\
     option_map (fun r => results (snd (Read buf16 (snd r))))
                (ReadAllSliceString lrFailOnBar)
       = Some [[fooLine; B "baz"]]).
Proof.
  intros k.
  destruct (Discard_total (collecting lr)) as ([err lr'] & Hd).
  exists (nth k (results lr') []), err, lr'.
  unfold ReadAllSlice, ReadAllSliceString. rewrite Hd. fold k.
  split; [reflexivity|]. split; [reflexivity|].
  destruct (drain_frame _ _ _ _ _ Hd) as [Hf Hl].
  assert (Hchain : filterFuncs lr' = filterFuncs lr ++ [CollectFunc k]).
  { rewrite Hf. reflexivity. }
  split; [exact Hchain|]. split.
  { rewrite Hchain, length_app. simpl. lia. }
  split.
  { intros p. pose proof (Read_frame lr' p) as Hr. simpl in Hr. tauto. }
  split.
  { intros p sc l1 lr1 Hs Hp.
    rewrite (Read_scanned _ _ _ Hs), Hchain.
    rewrite (applyFilters_passed _ _ _ _ _ _ Hp). simpl.
    apply nth_appendAt_same.
    destruct (passAll_frame _ _ _ _ _ Hp) as (_ & _ & _ & _ & _ & Hlen).
    rewrite Hlen. unfold scanned. simpl. rewrite Hl.
    unfold collecting. simpl. rewrite length_app. simpl. unfold k. lia. }
  split; vm_compute; reflexivity.
Qed.

End Collectors.

(** ** Readers built through the interface capture allocated variables *)

Section WellFormed.

Context {U : Type}.
Implicit Types (lr : Reader U).

Lemma capturesAllocated_NewReader chunks e (u : U) :
  capturesAllocated (NewReader chunks e u).
Proof. constructor. Qed.

Lemma capturesAllocated_MapErr f lr :
  capturesAllocated lr ->
  match f with
  | CollectFunc k => (k < length (results lr))%nat
  | _ => True
  end ->
  capturesAllocated (MapErr f lr).
Proof.
  unfold capturesAllocated, MapErr. simpl. intros Hc Hf.
  apply Forall_app. split; [exact Hc|]. constructor; [exact Hf | constructor].
Qed.

Lemma capturesAllocated_collecting lr :
  capturesAllocated lr -> capturesAllocated (collecting lr).
Proof.
  unfold capturesAllocated, collecting, MapErr. simpl. intros Hc.
  apply Forall_app. split.
  - eapply Forall_impl; [|exact Hc].
    intros [g | g | j]; simpl; trivial. rewrite length_app. simpl. lia.
  - constructor; [|constructor]. rewrite length_app. simpl. lia.
Qed.

Lemma capturesAllocated_Read lr p :
  capturesAllocated lr -> capturesAllocated (snd (Read p lr)).
Proof.
  unfold capturesAllocated. intros Hc.
  pose proof (Read_frame lr p) as Hf. simpl in Hf.
  destruct Hf as (Hff & _ & _ & Hl & _). rewrite Hff, Hl. exact Hc.
Qed.

End WellFormed.

Lemma collectors_stay_in_chain_witness :
  exists res err lr',
    ReadAllSliceString lrFailOnBar = Some (res, err, lr') /\
    length (filterFuncs lr') = 2%nat.
Proof.
  destruct (collectors_stay_in_chain lrFailOnBar)
    as (res & err & lr' & _ & Hs & _ & Hl & _).
  exists res, err, lr'. split; [exact Hs | exact Hl].
Defined.

(** * Further properties *)

(** ** The split function on its own *)

(** X2.  Whatever the data and the flag, [scanLinesWithNL] either returns
    a token, which is then the non-empty prefix of the data that its
    advance covers and holds the separator nowhere but, when the data has
    one, as its last byte, or it returns no token and advance 0, and
    that only when the data has no separator and the source may still
    deliver or the data is empty. *)
Theorem scanLinesWithNL_contract (rs : byte) (data : bytes) (atEOF : bool) :
  match scanLinesWithNL rs data atEOF with
  | (advance, Some token) =>
      1 <= advance <= len data /\
      advance = len token /\
      token = firstn (Z.to_nat advance) data /\
      ~ In rs (removelast token) /\
      (In rs data -> lastByteIs token rs = true) /\
      (~ In rs data -> atEOF = true /\ token = data)
  | (advance, None) =>
      advance = 0 /\ ~ In rs data /\ (atEOF = false \/ data = [])
  end.
Proof.
  destruct (Z_lt_le_dec (IndexByte data rs) 0) as [Hneg | Hpos].
  - pose proof (IndexByte_negative _ _ Hneg) as Hn.
    destruct atEOF.
    + destruct data as [|x data].
      * simpl. split; [reflexivity|]. split; [intros []|]. now right.
      * rewrite scanLinesWithNL_final by (assumption || discriminate).
        pose proof (len_nonneg data). rewrite len_cons.
        split; [lia|]. split; [reflexivity|]. split.
        { replace (Z.to_nat (len data + 1)) with (length (x :: data))
            by (unfold len; simpl length; lia).
          now rewrite firstn_all. }
        split.
        { intros Hin. apply Hn.
          rewrite (app_removelast_last x (l := x :: data)) by discriminate.
          apply in_or_app. now left. }
        split; [contradiction | intros _; now split].
    + rewrite scanLinesWithNL_more by assumption.
      split; [reflexivity|]. split; [assumption | now left].
  - destruct (IndexByte_found _ _ Hpos) as (r & d & -> & Hn & _).
    rewrite scanLinesWithNL_sep by assumption.
    pose proof (len_nonneg r). pose proof (len_nonneg d).
    rewrite len_app, len_cons. split; [lia|].
    split; [rewrite len_app; reflexivity|]. split.
    { replace (Z.to_nat (len r + 1)) with (length (r ++ [rs]) + 0)%nat
        by (rewrite length_app; unfold len; simpl; lia).
      replace (r ++ rs :: d) with ((r ++ [rs]) ++ d) by (now rewrite <- app_assoc).
      rewrite firstn_app_2. simpl. now rewrite app_nil_r. }
    split; [now rewrite removelast_last|].
    split; [intros _; apply lastByteIs_last|].
    intros Hno. exfalso. apply Hno, in_or_app. right. now left.
Qed.

(** ** The tokenizer over a whole input *)

(** X1.  Provided the records of the input are shorter than
    [bufio.MaxScanTokenSize] and the source never returns more than
    [maxConsecutiveEmptyReads] empty reads in a row, the tokenizer
    returns the records of the input, the same however the source cuts
    the input into chunks and whatever error the source ends with, and
    the records put end to end are the input: no byte is lost, added or
    moved. *)
Theorem tokenize_roundtrip (rs : byte) (chunks : list bytes) (e : error) :
  quiet chunks = true -> recordsFit rs (concat chunks) ->
  tokenize rs (NewScanner chunks e) = Some (splitRecords rs (concat chunks)) /\
  concat (splitRecords rs (concat chunks)) = concat chunks /\
  (forall chunks' e',
      quiet chunks' = true -> concat chunks' = concat chunks ->
      tokenize rs (NewScanner chunks' e') = tokenize rs (NewScanner chunks e)).
Proof.
  intros Hq Hfit.
  assert (H : forall cs err,
             quiet cs = true -> concat cs = concat chunks ->
             tokenize rs (NewScanner cs err) = Some (splitRecords rs (concat chunks))).
  { intros cs err Hqc Hc.
    rewrite (tokenize_records rs (NewScanner cs err)).
    - unfold rest. cbn [serr NewScanner sbuf srcChunks app]. now rewrite Hc.
    - apply scannable_NewScanner; [assumption | now rewrite Hc]. }
  split; [now apply H|]. split; [apply concat_splitRecords|].
  intros chunks' e' Hq' Hc. rewrite (H chunks' e' Hq' Hc).
  symmetry. now apply H.
Qed.

Lemma tokenize_roundtrip_witness :
  tokenize x0a (NewScanner [B "foo" ++ nl ++ B "b"; []; B "ar" ++ nl ++ B "baz"] EOF)
  = Some [B "foo" ++ nl; B "bar" ++ nl; B "baz"].
Proof.
  refine (proj1 (tokenize_roundtrip x0a
                   [B "foo" ++ nl ++ B "b"; []; B "ar" ++ nl ++ B "baz"] EOF _ _));
    [reflexivity | repeat constructor].
Defined.

Lemma splitRecords_shape (rs : byte) (data : bytes) :
  Forall (fun t => t <> [] /\ ~ In rs (removelast t)) (splitRecords rs data) /\
  (forall t ts, splitRecords rs data = t :: ts -> ts <> [] ->
                lastByteIs t rs = true) /\
  (forall pre t ts, splitRecords rs data = pre ++ t :: ts -> ts <> [] ->
                    lastByteIs t rs = true).
Proof.
  assert (Hgen : forall frs final,
             Forall (fun r => ~ In rs r) frs -> ~ In rs final ->
             Forall (fun t => t <> [] /\ ~ In rs (removelast t))
                    (expectedRecords rs frs final) /\
             (forall pre t ts, expectedRecords rs frs final = pre ++ t :: ts ->
                               ts <> [] -> lastByteIs t rs = true)).
  { intros frs final Hf Hn. split.
    - unfold expectedRecords. apply Forall_app. split.
      + apply Forall_map. eapply Forall_impl; [|exact Hf].
        intros r Hr. simpl. split; [now destruct r|].
        now rewrite removelast_last.
      + destruct final as [|x final]; constructor; [|constructor].
        split; [discriminate|]. intros Hin. apply Hn.
        rewrite (app_removelast_last x (l := x :: final)) by discriminate.
        apply in_or_app. now left.
    - intros pre t ts Heq Hts. unfold expectedRecords in Heq.
      assert (Hin : In t (map (fun r => r ++ [rs]) frs)).
      { destruct final as [|x final].
        - rewrite app_nil_r in Heq. rewrite Heq. apply in_or_app. right. now left.
        - destruct (exists_last Hts) as (ts' & l & ->).
          change (pre ++ t :: ts' ++ [l]) with (pre ++ (t :: ts') ++ [l]) in Heq.
          rewrite app_assoc in Heq.
          apply app_inj_tail in Heq as [Heq _]. rewrite Heq.
          apply in_or_app. right. now left. }
      apply in_map_iff in Hin as (r & <- & _). apply lastByteIs_last. }
  destruct (joinRecords_exists rs data) as (frs & final & Hf & Hn & ->).
  rewrite splitRecords_joinRecords by assumption.
  destruct (Hgen frs final Hf Hn) as [H1 H2].
  split; [exact H1|]. split; [|exact H2].
  intros t ts Heq. apply (H2 [] t ts). exact Heq.
Qed.

(** X3.  Every record the tokenizer returns is non-empty and holds the
    separator nowhere but possibly as its last byte, and every record but
    the last one ends with the separator. *)
Theorem tokens_shape (rs : byte) (chunks : list bytes) (e : error) :
  exists toks,
    tokenize rs (NewScanner chunks e) = Some toks /\
    Forall (fun t => t <> [] /\ ~ In rs (removelast t)) toks /\
    (forall pre t ts, toks = pre ++ t :: ts -> ts <> [] ->
                      lastByteIs t rs = true).
Proof.
  destruct (scanAll_total rs (S (pending (NewScanner chunks e)))
              (NewScanner chunks e)) as (toks & Ht); [lia|].
  exists toks. split; [exact Ht|].
  exact (scanAll_shape rs _ _ _ Ht).
Qed.

(** ** The end of the input *)

Section EndOfInput.

Context {U : Type}.
Implicit Types (lr : Reader U).

Lemma Read_at_end lr p :
  rest (scanner lr) = [] ->
  exists sc,
    Scan (RS (awkVars lr)) (scanner lr) = (false, sc) /\
    rest sc = [] /\ lastErr sc = lastErr (scanner lr) /\
    Read p lr = (0, Some (lastErr (scanner lr)), p, set_scanner lr sc).
Proof.
  intros Hr.
  destruct (Scan_empty (RS (awkVars lr)) (scanner lr) Hr) as (sc & Hs & Hr' & He).
  exists sc. split; [assumption|]. split; [assumption|].
  assert (Hl : lastErr sc = lastErr (scanner lr)).
  { unfold lastErr at 1. rewrite He. reflexivity. }
  split; [exact Hl|].
  rewrite (Read_ended _ _ _ Hs), copy_nothing.
  unfold ScannerErr. rewrite He. fold (lastErr (scanner lr)).
  destruct (lastErr (scanner lr)); reflexivity.
Qed.

(** X4.  Once the input is used up, [Read] returns no byte and the error
    the scanner ends with (the error the source ended with, [io.EOF] at a
    clean end, or [io.ErrNoProgress] when the source ends in more than
    [maxConsecutiveEmptyReads] empty reads), leaves the caller's buffer,
    the record number and the state of the callbacks as they are, runs no
    filter function, and every later call does the same: the reader it
    leaves is again one whose input is used up, with the same error. *)
Theorem Read_after_last_record lr p :
  rest (scanner lr) = [] ->
  exists lr',
    Read p lr = (0, Some (lastErr (scanner lr)), p, lr') /\
    awkVars lr' = awkVars lr /\ user lr' = user lr /\
    results lr' = results lr /\ filterFuncs lr' = filterFuncs lr /\
    (forall p', exists lr'',
      Read p' lr' = (0, Some (lastErr (scanner lr)), p', lr'')) /\
    rest (scanner lr') = [] /\
    lastErr (scanner lr') = lastErr (scanner lr).
Proof.
  intros Hr. destruct (Read_at_end lr p Hr) as (sc & Hs & Hr' & Hl & HR).
  exists (set_scanner lr sc). split; [exact HR|].
  repeat (split; [reflexivity|]).
  split; [|split; [exact Hr' | exact Hl]].
  intros p'.
  destruct (Read_at_end (set_scanner lr sc) p' Hr') as (sc' & _ & _ & _ & HR').
  exists (set_scanner (set_scanner lr sc) sc').
  rewrite HR'. simpl. now rewrite Hl.
Qed.

(** X5.  When the tokenizer delivers a record, every function of the
    chain returns a nil error on it and the last output fits the caller's
    buffer, [Read] returns the length of that output and a nil error, the
    buffer starts with the output and is unchanged behind it. *)
Theorem Read_delivers_chain_output lr p sc out lr1 :
  Scan (RS (awkVars lr)) (scanner lr) = (true, sc) ->
  passAll (filterFuncs lr) (stok sc) (scanned lr sc) = Some (out, lr1) ->
  len out <= len p ->
  Read p lr = (len out, None, out ++ skipn (Z.to_nat (len out)) p, lr1) /\
  len (out ++ skipn (Z.to_nat (len out)) p) = len p.
Proof.
  intros Hs Hp Hfit.
  rewrite (Read_scanned _ _ _ Hs).
  rewrite <- (app_nil_r (filterFuncs lr)).
  rewrite (applyFilters_passed _ _ _ _ _ _ Hp). simpl.
  unfold copy. simpl.
  replace (Z.min (len p) (len out)) with (len out) by lia.
  unfold len at 2. rewrite Nat2Z.id, firstn_all.
  split; [reflexivity|].
  unfold len in *. rewrite length_app, length_skipn. lia.
Qed.

End EndOfInput.

Lemma Read_after_last_record_witness :
  exists lr',
    Read buf16 lrClosed = (0, Some (ErrOther "closed"), buf16, lr').
Proof.
  destruct (Read_after_last_record lrClosed buf16 eq_refl) as (lr' & H & _).
  exists lr'. exact H.
Defined.

Lemma Read_delivers_chain_output_witness :
  Read buf16 lrAwkFoo =
  (4, None, fooLine ++ repeat x00 12,
   set_awkVars (scanned lrAwkFoo (snd (Scan x0a (scanner lrAwkFoo))))
     (set_NF (awkVars (scanned lrAwkFoo (snd (Scan x0a (scanner lrAwkFoo))))) 1)).
Proof.
  refine (proj1 (Read_delivers_chain_output lrAwkFoo buf16
                   (snd (Scan x0a (scanner lrAwkFoo))) fooLine _ _ _ _));
    [reflexivity | reflexivity | vm_compute; discriminate].
Defined.

(** ** What the collecting helpers return *)

Section CollectedStream.

Context {U : Type}.
Implicit Types (lr : Reader U) (f : FilterFunc U) (fs post : list (FilterFunc U)).
Implicit Types (gs : list pureFilter).

Lemma sameStream_refl k lr : sameStream k lr lr.
Proof. unfold sameStream. tauto. Qed.

Lemma sameStream_trans k lr1 lr2 lr3 :
  sameStream k lr1 lr2 -> sameStream k lr2 lr3 -> sameStream k lr1 lr3.
Proof.
  unfold sameStream. intros (? & ? & ? & ? & ?) (? & ? & ? & ? & ?).
  repeat split; congruence.
Qed.

Lemma call_sameStream k f line lr :
  otherThan k f -> sameStream k lr (snd (call f line lr)).
Proof.
  intros Ho. pose proof (call_frame f line lr) as Hf. simpl in Hf.
  pose proof (call_keeps_cell f k line lr Ho) as Hk.
  unfold sameStream. tauto.
Qed.

Lemma applyFilters_actsAs k rs fs gs :
  Forall2 (actsAs rs) fs gs -> Forall (otherThan k) fs ->
  forall post line lr,
    RS (awkVars lr) = rs ->
    exists lr1,
      sameStream k lr lr1 /\
      applyFilters (fs ++ post) line lr =
      match runChain gs line with
      | (out, None) => applyFilters post out lr1
      | (_, Some ErrOmitLine) => (nullBytes, None, lr1)
      | (out, Some e) => (out, Some e, lr1)
      end.
Proof.
  induction 1 as [|f g fs gs Hfg Hrest IH]; intros Ho post line lr Hrs.
  - exists lr. split; [apply sameStream_refl | reflexivity].
  - apply Forall_cons_iff in Ho as [Hof Hofs].
    pose proof (Hfg line lr Hrs) as Hc.
    pose proof (call_sameStream k f line lr Hof) as Hs.
    simpl. destruct (call f line lr) as [[out err] lr0]. simpl in Hc, Hs.
    rewrite <- Hc. destruct err as [e|].
    + exists lr0. split; [exact Hs|]. destruct e; reflexivity.
    + destruct (IH Hofs post out lr0) as (lr1 & Hs1 & Ha).
      { destruct Hs as (_ & _ & Hr & _). congruence. }
      exists lr1. split; [eapply sameStream_trans; eassumption | exact Ha].
Qed.

Lemma Read_error_at_end (s : Scanner) :
  forall sc, serr sc = Some (lastErr s) ->
  match ScannerErr sc with Some e => e | None => EOF end = lastErr s.
Proof.
  intros sc He. unfold ScannerErr. rewrite He. destruct (lastErr s); reflexivity.
Qed.

Lemma drain_collects k rs fs gs :
  Forall2 (actsAs rs) fs gs -> Forall (otherThan k) fs ->
  forall records fuel buf lr err lr',
    filterFuncs lr = fs ++ [CollectFunc k] ->
    RS (awkVars lr) = rs ->
    (k < length (results lr))%nat ->
    scannable rs (scanner lr) ->
    splitRecords rs (rest (scanner lr)) = records ->
    drain fuel buf lr = Some (err, lr') ->
    nth k (results lr') [] =
      nth k (results lr) [] ++
      fst (collected gs (drainErr (lastErr (scanner lr))) records) /\
    err = snd (collected gs (drainErr (lastErr (scanner lr))) records).
Proof.
  intros Hfg Ho.
  induction records as [|t ts IH];
    intros fuel buf lr err lr' Hch Hrs Hk Hsn Hrec Hd;
    (destruct fuel as [|fuel]; [discriminate|]); simpl in Hd;
    pose proof (Scan_next rs (scanner lr) Hsn) as Hn; rewrite Hrec in Hn.
  - destruct Hn as (sc & Hs & _ & He). rewrite <- Hrs in Hs.
    rewrite (Read_ended _ _ _ Hs), (Read_error_at_end _ _ He) in Hd.
    simpl. rewrite app_nil_r.
    destruct (lastErr (scanner lr)); injection Hd as <- <-; split; reflexivity.
  - destruct Hn as (sc & Hs & Htok & Hts & Hsn' & Hl). rewrite <- Hrs in Hs.
    rewrite (Read_scanned _ _ _ Hs), Hch, Htok in Hd.
    destruct (applyFilters_actsAs k rs fs gs Hfg Ho [CollectFunc k] t
                (scanned lr sc)) as (lr1 & Hsame & Ha); [exact Hrs|].
    rewrite Ha in Hd. clear Ha.
    destruct Hsame as (Hsc & Hff & Hr1 & Hlen & Hcell).
    simpl in Hsc, Hff, Hr1, Hlen, Hcell.
    simpl collected.
    destruct (runChain gs t) as [out [e|]].
    + destruct e as [| |m].
      * assert (Hk1 : (k < length (results lr1))%nat) by (rewrite Hlen; exact Hk).
        assert (Hts1 : splitRecords rs (rest (scanner lr1)) = ts)
          by (rewrite Hsc; exact Hts).
        assert (Hsn1 : scannable rs (scanner lr1)) by (rewrite Hsc; exact Hsn').
        destruct (IH fuel _ lr1 err lr' (eq_trans Hff Hch) (eq_trans Hr1 Hrs)
                    Hk1 Hsn1 Hts1 Hd) as [H1 H2].
        rewrite Hsc, Hl, Hcell in *. split; assumption.
      * injection Hd as <- <-. simpl. rewrite app_nil_r. split; [|reflexivity].
        exact Hcell.
      * injection Hd as <- <-. simpl. rewrite app_nil_r. split; [|reflexivity].
        exact Hcell.
    + simpl in Hd.
      set (lr2 := set_results lr1 (appendAt k out (results lr1))) in *.
      assert (Hlen2 : length (results lr2) = length (results lr1)).
      { exact (proj2 (proj2 (proj2 (proj2 (proj2
                 (call_frame (CollectFunc k) out lr1)))))). }
      assert (Hk2 : (k < length (results lr2))%nat)
        by (rewrite Hlen2, Hlen; exact Hk).
      assert (Hts2 : splitRecords rs (rest (scanner lr2)) = ts).
      { change (scanner lr2) with (scanner lr1). rewrite Hsc. exact Hts. }
      assert (Hsn2 : scannable rs (scanner lr2)).
      { change (scanner lr2) with (scanner lr1). rewrite Hsc. exact Hsn'. }
      assert (Hch2 : filterFuncs lr2 = fs ++ [CollectFunc k]).
      { change (filterFuncs lr2) with (filterFuncs lr1). congruence. }
      assert (Hrs2 : RS (awkVars lr2) = rs).
      { change (awkVars lr2) with (awkVars lr1). congruence. }
      destruct (IH fuel _ lr2 err lr' Hch2 Hrs2 Hk2 Hsn2 Hts2 Hd) as [H1 H2].
      change (scanner lr2) with (scanner lr1) in H1, H2.
      change (results lr2) with (appendAt k out (results lr1)) in H1.
      rewrite Hsc, Hl in H1, H2.
      rewrite nth_appendAt_same, Hcell in H1 by (rewrite Hlen; exact Hk).
      destruct (collected gs (drainErr (lastErr (scanner lr))) ts) as [l e'].
      simpl in *. rewrite <- app_assoc in H1. split; assumption.
Qed.

Lemma collect_chain lr gs :
  Forall2 (actsAs (RS (awkVars lr))) (filterFuncs lr) gs ->
  capturesAllocated lr ->
  scannable (RS (awkVars lr)) (scanner lr) ->
  exists lr',
    ReadAllSliceString lr =
    Some (collected gs (drainErr (lastErr (scanner lr)))
            (splitRecords (RS (awkVars lr)) (rest (scanner lr))), lr').
Proof.
  intros Hfg Hcap Hsn.
  destruct (Discard_total (collecting lr)) as ([err lr'] & Hd).
  exists lr'. unfold ReadAllSliceString. rewrite Hd.
  unfold Discard in Hd.
  assert (Hk : (length (results lr) < length (results (collecting lr)))%nat).
  { unfold collecting. simpl. rewrite length_app. simpl. lia. }
  destruct (drain_collects (length (results lr)) (RS (awkVars lr))
              (filterFuncs lr) gs Hfg (capturesAllocated_otherThan lr Hcap)
              (splitRecords (RS (awkVars lr)) (rest (scanner lr)))
              _ _ (collecting lr) err lr' eq_refl eq_refl Hk Hsn eq_refl Hd)
    as [H1 H2].
  change (scanner (collecting lr)) with (scanner lr) in H1, H2.
  change (results (collecting lr)) with (results lr ++ [[]]) in H1.
  rewrite nth_middle in H1. simpl in H1.
  rewrite H1, H2.
  destruct (collected gs (drainErr (lastErr (scanner lr)))
              (splitRecords (RS (awkVars lr)) (rest (scanner lr)))).
  reflexivity.
Qed.

(** The same on a reader whose scanner has not been used yet. *)
Lemma collect_fresh lr gs rs chunks e :
  scanner lr = NewScanner chunks e -> RS (awkVars lr) = rs ->
  quiet chunks = true -> recordsFit rs (concat chunks) ->
  Forall2 (actsAs rs) (filterFuncs lr) gs ->
  capturesAllocated lr ->
  exists lr',
    ReadAllSliceString lr =
    Some (collected gs (drainErr e) (splitRecords rs (concat chunks)), lr').
Proof.
  intros Hsc Hrs Hq Hfit Hfg Hcap. subst rs.
  destruct (collect_chain lr gs Hfg Hcap) as (lr' & H).
  { rewrite Hsc. now apply scannable_NewScanner. }
  exists lr'. rewrite H, Hsc.
  rewrite (quiet_lastErr (NewScanner chunks e) eq_refl Hq).
  reflexivity.
Qed.

(** X6.  Over a chain of functions that behave as stateless functions
    [gs] and a scanner that can deliver the records left,
    [ReadAllSliceString] runs every record of the remaining input through
    the chain in order: the output of a record that passes is collected,
    an omitted record is skipped, and the first hard error ends the
    collection and is returned ([io.EOF] as nil); when the records run out
    the error the source ended with is returned, nil for [io.EOF]. *)
Theorem collect_stateless_chain lr gs :
  Forall2 (actsAs (RS (awkVars lr))) (filterFuncs lr) gs ->
  capturesAllocated lr ->
  scannable (RS (awkVars lr)) (scanner lr) ->
  exists lr',
    let r := collected gs (drainErr (lastErr (scanner lr)))
               (splitRecords (RS (awkVars lr)) (rest (scanner lr))) in
    ReadAllSliceString lr = Some (fst r, snd r, lr').
Proof.
  intros Hfg Hcap Hsn.
  destruct (collect_chain lr gs Hfg Hcap Hsn) as (lr' & H).
  exists lr'. cbv zeta. rewrite H.
  destruct (collected gs (drainErr (lastErr (scanner lr)))
              (splitRecords (RS (awkVars lr)) (rest (scanner lr)))).
  reflexivity.
Qed.

End CollectedStream.

Lemma collect_stateless_chain_witness :
  exists lr',
    ReadAllSliceString lrFailOnBar =
    Some ([fooLine], Some (ErrOther "boom"), lr').
Proof.
  destruct (collect_stateless_chain lrFailOnBar
              [fun line => if bytes_eqb line (B "bar" ++ nl)
                           then (line, Some (ErrOther "boom"))
                           else (line, None)]) as (lr' & H).
  - constructor; [|constructor]. intros line lr _. simpl.
    match goal with |- context [bytes_eqb ?a ?b] => destruct (bytes_eqb a b) end;
      reflexivity.
  - repeat constructor.
  - apply (scannable_NewScanner x0a [fooBarBaz] EOF);
      [reflexivity | repeat constructor].
  - exists lr'. exact H.
Defined.

(** ** Map, Grep and AWKMode over a whole input *)

Lemma collected_map (h : bytes -> bytes) (endE : option error) (records : list bytes) :
  collected [fun line => (h line, None)] endE records = (map h records, endE).
Proof.
  induction records as [|r records IH]; simpl; [reflexivity|].
  now rewrite IH.
Qed.

Lemma collected_filter (keep : bytes -> bool) (endE : option error)
  (records : list bytes) :
  collected [fun line => if keep line then (line, None)
                         else (nullBytes, Some ErrOmitLine)] endE records
  = (filter keep records, endE).
Proof.
  induction records as [|r records IH]; simpl; [reflexivity|].
  destruct (keep r); simpl; now rewrite IH.
Qed.

Lemma collected_filter_map (keep : bytes -> bool) (h : bytes -> bytes)
  (endE : option error) (records : list bytes) :
  collected [fun line => if keep line then (line, None)
                         else (nullBytes, Some ErrOmitLine);
             fun line => (h line, None)] endE records
  = (map h (filter keep records), endE).
Proof.
  induction records as [|r records IH]; simpl; [reflexivity|].
  destruct (keep r); simpl; now rewrite IH.
Qed.

Lemma collected_map_map (h1 h2 : bytes -> bytes) (endE : option error)
  (records : list bytes) :
  collected [fun line => (h1 line, None); fun line => (h2 line, None)] endE records
  = (map (fun r => h2 (h1 r)) records, endE).
Proof.
  induction records as [|r records IH]; simpl; [reflexivity|].
  now rewrite IH.
Qed.

Lemma lastByteIs_absent (s : bytes) (rs : byte) :
  ~ In rs s -> lastByteIs s rs = false.
Proof.
  intros Hn. unfold lastByteIs. destruct (rev s) as [|x l] eqn:E; [reflexivity|].
  apply byte_eqb_neq. intros ->. apply Hn. apply in_rev. rewrite E. now left.
Qed.

Lemma lastByteIs_split (s : bytes) (rs : byte) :
  lastByteIs s rs = true -> s = removelast s ++ [rs].
Proof.
  unfold lastByteIs. intros H.
  destruct (rev s) as [|x l] eqn:E; [discriminate|].
  apply Byte.byte_dec_bl in H. subst x.
  assert (Hs : s = rev l ++ [rs]).
  { rewrite <- (rev_involutive s), E. reflexivity. }
  rewrite Hs at 1. rewrite Hs, removelast_last. reflexivity.
Qed.

Lemma awkIdentityFilter_record (rs : byte) (t : bytes) :
  (Byte.to_N rs < 128)%N ->
  ~ In rs (removelast t) -> awkIdentityFilter rs t = (t, None).
Proof.
  intros Ha Hn. unfold awkIdentityFilter.
  rewrite (stringOfByte_ascii rs Ha), HasSuffix_byte.
  destruct (lastByteIs t rs) eqn:E; [|reflexivity].
  pose proof (lastByteIs_split _ _ E) as Ht.
  assert (Hc : TrimSuffix t [rs] = removelast t).
  { rewrite Ht at 1. apply TrimSuffix_app. }
  rewrite Hc, HasSuffix_byte, (lastByteIs_absent _ _ Hn).
  now rewrite <- Ht.
Qed.

Lemma collected_awkIdentity (rs : byte) (endE : option error) (records : list bytes) :
  (Byte.to_N rs < 128)%N ->
  Forall (fun t => t <> [] /\ ~ In rs (removelast t)) records ->
  collected [awkIdentityFilter rs] endE records = (records, endE).
Proof.
  intros Ha. induction 1 as [|t records [_ Ht] Hrest IH]; simpl; [reflexivity|].
  rewrite (awkIdentityFilter_record _ _ Ha Ht), IH. reflexivity.
Qed.

Section WholeInput.

Context {U : Type}.

Lemma actsAs_awkIdentity (rs : byte) :
  actsAs rs (AWKFunc (@awkIdentity U)) (awkIdentityFilter rs).
Proof.
  intros line lr Hrs. unfold call, awkArgs, awkIdentity, awkIdentityFilter.
  cbn [awkVars set_awkVars set_user user RS set_NF]. rewrite Hrs.
  destruct (HasSuffix line (stringOfByte rs)) eqn:E.
  - destruct (HasSuffix (TrimSuffix line (stringOfByte rs)) (stringOfByte rs));
      reflexivity.
  - rewrite andb_false_r. reflexivity.
Qed.



(** X9.  Over a whole input whose records are shorter than
    [bufio.MaxScanTokenSize], from a source that never returns more than
    [maxConsecutiveEmptyReads] empty reads in a row, and with no other
    filter, [Grep] and [GrepString] with a stateless predicate collect
    exactly the records the predicate accepts, in order and unchanged, and
    [GrepByRegexp] the records the expression matches; the records that
    are dropped are no error. *)
Theorem Grep_collects (chunks : list bytes) (e : error) (u : U)
  (keep : bytes -> bool) (re : Regexp) :
  quiet chunks = true -> recordsFit defaultRS (concat chunks) ->
  exists lr1 lr2 lr3,
    ReadAllSliceString (Grep (fun line u => (keep line, u)) (NewReader chunks e u)) =
      Some (filter keep (splitRecords defaultRS (concat chunks)), drainErr e, lr1) /\
    ReadAllSliceString (GrepString (fun line u => (keep line, u)) (NewReader chunks e u)) =
      Some (filter keep (splitRecords defaultRS (concat chunks)), drainErr e, lr2) /\
    ReadAllSliceString (GrepByRegexp re (NewReader chunks e u)) =
      Some (filter (Match re) (splitRecords defaultRS (concat chunks)),
            drainErr e, lr3).
Proof.
  intros Hq Hfit.
  assert (H : forall k : bytes -> bool, exists lr',
             ReadAllSliceString (Grep (fun line u => (k line, u)) (NewReader chunks e u)) =
             Some (filter k (splitRecords defaultRS (concat chunks)), drainErr e, lr')).
  { intros k.
    destruct (collect_fresh
                (Grep (fun line u => (k line, u)) (NewReader chunks e u))
                [fun line => if k line then (line, None)
                             else (nullBytes, Some ErrOmitLine)]
                defaultRS chunks e eq_refl eq_refl Hq Hfit) as (lr' & H).
    { constructor; [|constructor]. intros line lr _. simpl.
      destruct (k line); reflexivity. }
    { repeat constructor. }
    exists lr'. rewrite collected_filter in H. exact H. }
  destruct (H keep) as (lr1 & H1). destruct (H (Match re)) as (lr3 & H3).
  exists lr1, lr1, lr3. split; [exact H1|]. split; [exact H1 | exact H3].
Qed.

(** X10.  Over a whole input whose records are shorter than
    [bufio.MaxScanTokenSize], from a source that never returns more than
    [maxConsecutiveEmptyReads] empty reads in a row, and with no other
    filter, [AWKMode] with a callback that returns its input unchanged
    gives back every record as the tokenizer cut it, the unterminated
    last one included. *)
Theorem AWKMode_identity_collects (chunks : list bytes) (e : error) (u : U) :
  quiet chunks = true -> recordsFit defaultRS (concat chunks) ->
  exists lr',
    ReadAllSliceString (AWKMode awkIdentity (NewReader chunks e u)) =
    Some (splitRecords defaultRS (concat chunks), drainErr e, lr') /\
    concat (splitRecords defaultRS (concat chunks)) = concat chunks.
Proof.
  intros Hq Hfit.
  destruct (collect_fresh
              (AWKMode awkIdentity (NewReader chunks e u))
              [awkIdentityFilter defaultRS] defaultRS chunks e
              eq_refl eq_refl Hq Hfit) as (lr' & H).
  { constructor; [|constructor]. apply actsAs_awkIdentity. }
  { repeat constructor. }
  exists lr'.
  rewrite collected_awkIdentity in H
    by (reflexivity || apply (splitRecords_shape defaultRS (concat chunks))).
  split; [exact H | apply concat_splitRecords].
Qed.

End WholeInput.



Lemma Grep_collects_witness :
  exists lr1,
    ReadAllSliceString
      (Grep (fun line u => (bytes_eqb line (B "bar" ++ nl), u))
            (NewReader [fooBarBaz] EOF tt)) =
    Some ([B "bar" ++ nl], None, lr1).
Proof.
  destruct (Grep_collects [fooBarBaz] EOF tt
              (fun line => bytes_eqb line (B "bar" ++ nl)) defaultFS)
    as (lr1 & _ & _ & H1 & _); [reflexivity | repeat constructor |].
  exists lr1. exact H1.
Defined.

Lemma AWKMode_identity_collects_witness :
  exists lr',
    ReadAllSliceString (AWKMode awkIdentity (NewReader [fooBarBaz] EOF tt)) =
    Some ([B "foo" ++ nl; B "bar" ++ nl; B "baz"], None, lr').
Proof.
  destruct (AWKMode_identity_collects [fooBarBaz] EOF tt)
    as (lr' & H & _); [reflexivity | repeat constructor |].
  exists lr'. exact H.
Defined.

(** ** Draining a chain that never fails *)

Lemma collected_nil (endE : option error) (records : list bytes) :
  collected [] endE records = (records, endE).
Proof.
  induction records as [|r records IH]; simpl; [reflexivity|].
  now rewrite IH.
Qed.

Section NeverFailing.

Context {U : Type}.
Implicit Types (lr : Reader U) (f : FilterFunc U) (fs : list (FilterFunc U)).

Lemma neverFails_awkIdentity : neverFails (AWKFunc (@awkIdentity U)).
Proof.
  intros line lr. unfold call, awkArgs, awkIdentity.
  cbn [awkVars set_awkVars set_user user RS set_NF].
  repeat match goal with |- context [if ?c then _ else _] => destruct c end;
    simpl; trivial.
Qed.

Lemma neverFails_CollectFunc k : neverFails (@CollectFunc U k).
Proof. intros line lr. simpl. trivial. Qed.

Lemma neverFails_map_closure (g : bytes -> U -> bytes * U) :
  neverFails (UserFunc (fun line u => let '(out, u) := g line u in (out, None, u))).
Proof. intros line lr. rewrite call_map_closure. simpl. trivial. Qed.

Lemma neverFails_grep_closure (g : bytes -> U -> bool * U) :
  neverFails (UserFunc (fun line u =>
                let '(keep, u) := g line u in
                if keep then (line, None, u)
                else (nullBytes, Some ErrOmitLine, u))).
Proof.
  intros line lr. rewrite call_grep_closure. simpl.
  destruct (fst (g line (user lr))); simpl; trivial.
Qed.

Lemma applyFilters_neverFails fs :
  Forall neverFails fs ->
  forall line lr, snd (fst (applyFilters fs line lr)) = None.
Proof.
  induction 1 as [|f fs Hf Hfs IH]; intros line lr; simpl; [reflexivity|].
  pose proof (Hf line lr) as Hc.
  destruct (call f line lr) as [[out err] lr1]. simpl in Hc.
  destruct err as [[| |m]|]; try reflexivity; try contradiction.
  apply IH.
Qed.

Lemma drain_neverFails :
  forall records fuel buf lr err lr',
    Forall neverFails (filterFuncs lr) ->
    scannable (RS (awkVars lr)) (scanner lr) ->
    0 <= NR (awkVars lr) ->
    NR (awkVars lr) + len records <= maxInt ->
    splitRecords (RS (awkVars lr)) (rest (scanner lr)) = records ->
    drain fuel buf lr = Some (err, lr') ->
    err = drainErr (lastErr (scanner lr)) /\
    rest (scanner lr') = [] /\
    NR (awkVars lr') = NR (awkVars lr) + len records.
Proof.
  induction records as [|t ts IH];
    intros fuel buf lr err lr' Hnf Hsn Hnr0 Hnr1 Hrec Hd;
    (destruct fuel as [|fuel]; [discriminate|]); simpl in Hd;
    pose proof (Scan_next (RS (awkVars lr)) (scanner lr) Hsn) as Hn;
    rewrite Hrec in Hn.
  - destruct Hn as (sc & Hs & Hr & He).
    rewrite (Read_ended _ _ _ Hs), (Read_error_at_end _ _ He) in Hd.
    destruct (lastErr (scanner lr)); injection Hd as <- <-;
      (split; [reflexivity|]); (split; [exact Hr|]); simpl; unfold len; simpl; lia.
  - destruct Hn as (sc & Hs & Htok & Hts & Hsn' & Hl).
    rewrite (Read_scanned _ _ _ Hs) in Hd.
    pose proof (applyFilters_neverFails _ Hnf (stok sc) (scanned lr sc)) as He.
    pose proof (applyFilters_frame (filterFuncs lr) (stok sc) (scanned lr sc)) as Hf.
    destruct (applyFilters (filterFuncs lr) (stok sc) (scanned lr sc))
      as [[l e] lr2]. simpl in He, Hf. subst e.
    destruct Hf as (Hsc & Hff & Hnr & Hrs & _).
    rewrite len_cons in Hnr1. pose proof (len_nonneg ts) as Hts0.
    assert (Hnr2 : NR (awkVars lr2) = NR (awkVars lr) + 1).
    { rewrite Hnr. apply wrapInt_small. lia. }
    assert (Hnf2 : Forall neverFails (filterFuncs lr2)) by (rewrite Hff; exact Hnf).
    assert (Hts2 : splitRecords (RS (awkVars lr2)) (rest (scanner lr2)) = ts)
      by (rewrite Hrs, Hsc; exact Hts).
    assert (Hsn2 : scannable (RS (awkVars lr2)) (scanner lr2))
      by (rewrite Hrs, Hsc; exact Hsn').
    destruct (IH fuel (fst (copy buf l)) lr2 err lr' Hnf2 Hsn2)
      as (H1 & H2 & H3); [lia | lia | exact Hts2 | exact Hd |].
    rewrite Hsc in H1. simpl in H1. rewrite Hl in H1.
    split; [exact H1|]. split; [exact H2|].
    rewrite H3, Hnr2, len_cons. lia.
Qed.

(** X11.  When no function of the chain ever returns an error other
    than [ErrOmitLine], the scanner can deliver the records left and [NR]
    stays within [int], [Discard] reads the input to its end: it returns
    the error the source ended with, nil for [io.EOF], nothing is left
    for the tokenizer, and [NR] has grown by the number of records. *)
Theorem Discard_reads_everything lr :
  Forall neverFails (filterFuncs lr) ->
  scannable (RS (awkVars lr)) (scanner lr) ->
  0 <= NR (awkVars lr) ->
  NR (awkVars lr) + len (splitRecords (RS (awkVars lr)) (rest (scanner lr)))
    <= maxInt ->
  exists lr',
    Discard lr = Some (drainErr (lastErr (scanner lr)), lr') /\
    rest (scanner lr') = [] /\
    NR (awkVars lr') =
    NR (awkVars lr) + len (splitRecords (RS (awkVars lr)) (rest (scanner lr))).
Proof.
  intros Hnf Hsn Hnr0 Hnr1.
  destruct (Discard_total lr) as ([err lr'] & Hd).
  exists lr'. rewrite Hd. unfold Discard in Hd.
  destruct (drain_neverFails _ _ _ _ _ _ Hnf Hsn Hnr0 Hnr1 eq_refl Hd)
    as (-> & H2 & H3).
  split; [reflexivity|]. split; assumption.
Qed.

(** X12.  [SetRS] changes the byte at which the input is cut into
    records, [SetFS] does not: after both and with no filter, over an
    input whose records for the new separator are shorter than
    [bufio.MaxScanTokenSize] and a source that never returns more than
    [maxConsecutiveEmptyReads] empty reads in a row, [ReadAllSliceString]
    returns the records of the input for the new separator; and when the
    new separator is a byte below 0x80, so does it through [AWKMode] with
    a callback that returns its input unchanged, which strips and
    restores the new separator. *)
Theorem SetRS_cuts_records (chunks : list bytes) (e : error) (u : U)
  (rs : byte) (fs : Regexp) :
  quiet chunks = true -> recordsFit rs (concat chunks) ->
  exists lr1,
    ReadAllSliceString (SetFS fs (SetRS rs (NewReader chunks e u))) =
      Some (splitRecords rs (concat chunks), drainErr e, lr1) /\
    ((Byte.to_N rs < 128)%N ->
     exists lr2,
       ReadAllSliceString
         (AWKMode awkIdentity (SetFS fs (SetRS rs (NewReader chunks e u)))) =
       Some (splitRecords rs (concat chunks), drainErr e, lr2)).
Proof.
  intros Hq Hfit.
  destruct (collect_fresh
              (SetFS fs (SetRS rs (NewReader chunks e u))) [] rs chunks e
              eq_refl eq_refl Hq Hfit)
    as (lr1 & H1); [constructor | constructor |].
  exists lr1. rewrite collected_nil in H1. split; [exact H1|].
  intros Ha.
  destruct (collect_fresh
              (AWKMode awkIdentity (SetFS fs (SetRS rs (NewReader chunks e u))))
              [awkIdentityFilter rs] rs chunks e eq_refl eq_refl Hq Hfit)
    as (lr2 & H2).
  { constructor; [|constructor]. apply actsAs_awkIdentity. }
  { repeat constructor. }
  exists lr2.
  rewrite collected_awkIdentity in H2
    by (assumption || apply (splitRecords_shape rs (concat chunks))).
  exact H2.
Qed.

End NeverFailing.

Lemma Discard_reads_everything_witness :
  exists lr',
    Discard lrAwkTwo = Some (None, lr') /\
    rest (scanner lr') = [] /\
    NR (awkVars lr') = 2.
Proof.
  destruct (Discard_reads_everything lrAwkTwo) as (lr' & H1 & H2 & H3).
  - constructor; [apply neverFails_awkIdentity | constructor].
  - apply (scannable_NewScanner x0a [fooLine; B "bar"] EOF);
      [reflexivity | repeat constructor].
  - discriminate.
  - discriminate.
  - exists lr'. split; [exact H1|]. split; [exact H2 | exact H3].
Defined.

Lemma SetRS_cuts_records_witness :
  exists lr1,
    ReadAllSliceString (SetFS defaultFS (SetRS x3b (NewReader [B "a;b;c"] EOF tt))) =
    Some ([B "a;"; B "b;"; B "c"], None, lr1).
Proof.
  destruct (SetRS_cuts_records [B "a;b;c"] EOF tt x3b defaultFS)
    as (lr1 & H1 & _); [reflexivity | repeat constructor |].
  exists lr1. exact H1.
Defined.

(** ** The AWK adapter on a record without separator *)

Section AwkUnterminated.

Context {U : Type}.
Implicit Types (lr : Reader U).

(** X13.  For a record that does not end with the separator as the AWK
    adapter looks for it, the string [string(RS)], as the last record of
    an input without final separator, the closure of [AWKMode] hands the
    whole record to the callback and returns the callback's result as it
    is: no separator is added. *)
Theorem awk_adds_no_separator lr line
  (filterFn : bytes -> list bytes -> AWKVars -> U -> bytes * option error * U)
  result u :
  let fields := Split (FS (awkVars lr)) line (-1) in
  let vars := set_NF (awkVars lr) (len fields) in
  HasSuffix line (stringOfByte (RS (awkVars lr))) = false ->
  filterFn line fields vars (user lr) = (result, None, u) ->
  awkArgs line (awkVars lr) = (false, line, fields, vars) /\
  call (AWKFunc filterFn) line lr =
    (result, None, set_user (set_awkVars lr vars) u).
Proof.
  intros fields vars Hs Hf.
  assert (Ha : awkArgs line (awkVars lr) = (false, line, fields, vars)).
  { unfold awkArgs. rewrite Hs. reflexivity. }
  split; [exact Ha|].
  unfold call. rewrite Ha.
  replace (awkVars (set_awkVars lr vars)) with vars by reflexivity.
  replace (user (set_awkVars lr vars)) with (user lr) by reflexivity.
  rewrite Hf. rewrite andb_false_r. reflexivity.
Qed.

End AwkUnterminated.

Lemma awk_adds_no_separator_witness :
  fst (call (AWKFunc awkIdentity) (B "bar") lrAwkBar) = (B "bar", None).
Proof.
  refine (f_equal fst (proj2 (awk_adds_no_separator lrAwkBar (B "bar")
                                awkIdentity (B "bar") tt _ _)));
    reflexivity.
Defined.

(** ** The caller's buffer, whatever the record *)

Lemma copy_contents (p lineBytes : bytes) :
  fst (copy p lineBytes) =
  firstn (Z.to_nat (len p)) lineBytes ++ skipn (Z.to_nat (len lineBytes)) p.
Proof.
  unfold copy. cbn [fst].
  destruct (Z_le_gt_dec (len lineBytes) (len p)) as [Hle | Hgt].
  - replace (Z.min (len p) (len lineBytes)) with (len lineBytes) by lia.
    f_equal. unfold len in *. rewrite Nat2Z.id.
    rewrite firstn_all, firstn_all2 by lia. reflexivity.
  - replace (Z.min (len p) (len lineBytes)) with (len p) by lia.
    f_equal. unfold len in *. rewrite !Nat2Z.id.
    rewrite skipn_all, skipn_all2 by lia. reflexivity.
Qed.

Section CallerBuffer.

Context {U : Type}.
Implicit Types (lr : Reader U).

(** X14.  Whatever the record and the buffer, a call of [Read] leaves the
    caller's buffer at its length.  With [lineBytes] the output of the
    filter chain on the record the tokenizer delivered (nothing when it
    delivered none), the buffer then holds [lineBytes] cut to the length
    of the buffer, followed by what the buffer held behind the record
    before, and the count returned is the length of the whole of
    [lineBytes], which is never negative. *)
Theorem Read_keeps_buffer_length lr p :
  let '(ok, sc) := Scan (RS (awkVars lr)) (scanner lr) in
  let '(lineBytes, err, lr') :=
    if ok then applyFilters (filterFuncs lr) (stok sc) (scanned lr sc)
    else (nullBytes,
          Some (match ScannerErr sc with Some e => e | None => EOF end),
          set_scanner lr sc) in
  Read p lr =
    (len lineBytes, err,
     firstn (Z.to_nat (len p)) lineBytes ++ skipn (Z.to_nat (len lineBytes)) p,
     lr') /\
  len (firstn (Z.to_nat (len p)) lineBytes ++
       skipn (Z.to_nat (len lineBytes)) p) = len p /\
  0 <= len lineBytes.
Proof.
  assert (Hlen : forall lineBytes : bytes,
             len (firstn (Z.to_nat (len p)) lineBytes ++
                  skipn (Z.to_nat (len lineBytes)) p) = len p).
  { intros l. rewrite <- copy_contents. apply copy_at_most. }
  destruct (Scan (RS (awkVars lr)) (scanner lr)) as [[|] sc] eqn:Hs.
  - rewrite (Read_scanned _ _ _ Hs).
    destruct (applyFilters (filterFuncs lr) (stok sc) (scanned lr sc))
      as [[l e] lr2].
    rewrite copy_contents.
    split; [reflexivity|]. split; [apply Hlen | apply len_nonneg].
  - rewrite (Read_ended _ _ _ Hs), copy_contents.
    split; [reflexivity|]. split; [apply Hlen | apply len_nonneg].
Qed.

End CallerBuffer.

